(** * aiopomodoro.aioobserve: observation of attribute mutation

    A shallow embedding of [src/aiopomodoro/aioobserve.py]:
    the [ObservableMixIn] entity with its synchronous fan-out, the [state]
    generator behind every [observe] stream, the [observe] asynchronous
    generator itself, [notify], and the two drivers [seq] and [switch].

    Python objects are values of [pyobj]; a Python [set] of callables is a
    duplicate-free list whose order stands for the (unspecified) iteration
    order of the set, so that statements about a set speak of membership
    and size only; dictionaries are [gmap]s.  Coroutines are explicit
    state machines stepped by the events of a single cooperative
    scheduler. *)

From Stdlib Require Import ZArith.
From stdpp Require Import gmap strings list.

Open Scope Z_scope.
Open Scope nat_scope.

(** ** Python values *)

(** Immutable data compares by value; an instance of [object] compares by
    identity, which [PObject] records.  A class may define [__eq__]
    itself: [PAny] is an object of a class whose [__eq__] accepts every
    value, as [unittest.mock.ANY] does. *)
Inductive pyobj :=
| PNone
| PBool (b : bool)
| PInt (z : Z)
| PStr (s : string)
| PObject (id : positive)
| PAny.

#[global] Instance pyobj_eq_dec : EqDecision pyobj.
Proof. solve_decision. Defined.

(** [SENTINEL = object()], the key of the subscriber registry in
    [__dict__] (aioobserve.py:17). *)
Definition SENTINEL : pyobj := PObject 1.

(** [DELETED = object()], the deletion marker (aioobserve.py:20). *)
Definition DELETED : pyobj := PObject 2.

(** Python's [==].  [bool] is a subclass of [int], so [False == 0] and
    [True == 1]; every other pair of distinct built-in kinds is unequal,
    and plain objects are equal only to themselves.  The [__eq__] of the
    built-in types and of [object] answers [NotImplemented] for a value
    it does not know, so the [__eq__] of [PAny] decides on either
    side. *)
Definition py_eq (x y : pyobj) : bool :=
  match x, y with
  | PAny, _ | _, PAny => true
  | PNone, PNone => true
  | PBool a, PBool b => Bool.eqb a b
  | PBool a, PInt z | PInt z, PBool a => Z.eqb z (if a then 1 else 0)%Z
  | PInt a, PInt b => Z.eqb a b
  | PStr a, PStr b => bool_decide (a = b)
  | PObject a, PObject b => Pos.eqb a b
  | _, _ => false
  end.

(** Exceptions that travel through the module. *)
Inductive exn :=
| AttributeError (name : string)
| KeyError
| CancelledError
| GeneratorExit
| TypeError
| Failure (tag : nat).

#[global] Instance exn_eq_dec : EqDecision exn.
Proof. solve_decision. Defined.

(** ** The [state] generator (aioobserve.py:40-46)

    [state(event, sentinel, value=None)] keeps one local, [value], and
    owns one event.  After the priming [s.send(None)] it is suspended at
    [yield value]; every later [s.send(update)] runs one turn of the loop
    and returns the then-current [value].  [sentinel] is the private
    [read] object of [observe], which no caller can pass, so the identity
    test [update is sentinel] is the case distinction of [msg]. *)
Inductive msg :=
| Read
| Update (update : pyobj).

Record bridge := Bridge {
  value : pyobj;   (* the generator's local [value] *)
  event : bool     (* the flag of the [asyncio.Event] *)
}.

(** The generator right after [s.send(None)]. *)
Definition state_init : bridge := Bridge PNone false.

#[global] Instance bridge_inhabited : Inhabited bridge := populate state_init.

Definition state_send (m : msg) (s : bridge) : bridge * pyobj :=
  match m with
  | Read => (Bridge (value s) false, value s)          (* event.clear() *)
  | Update update => (Bridge update true, update)      (* value = update; event.set() *)
  end.

(** ** The observable entity (aioobserve.py:22-38, 64-76) *)

Section Entity.
(** [C] names the callables kept in subscriber sets and [W] is the part
    of the program state they act on.  A callable is run by [call]: it
    receives the dispatched value and reads the entity's attributes; it
    returns normally ([None]) or raises.  The callables the module
    itself subscribes, the [send] of a [state] generator, are of this
    kind; a callable that assigns to the entity while it is being called
    from a fan-out is not described. *)
Context {C W : Type}.
Variable call : C → pyobj → gmap string pyobj → W → W * option exn.

Record entity := Entity {
  attrs : gmap string pyobj;
  (* [__dict__[SENTINEL]], absent until [ObservableMixIn.__init__] ran *)
  registry : option (gmap string (list C))
}.

(** One executed [function(value)], with the attributes the callee could
    read at that moment. *)
Record invocation := Invoke {
  callee : C;
  arg : pyobj;
  seen : gmap string pyobj
}.

(** What an operation leaves behind: the entity, the callables' state,
    the calls made in order, and the result or the exception. *)
Record outcome (A : Type) := Outcome {
  after : entity;
  world : W;
  calls : list invocation;
  result : exn + A
}.
Arguments Outcome {A}.
Arguments after {A}.
Arguments world {A}.
Arguments calls {A}.
Arguments result {A}.

(** [SENTINEL in (o := self.__dict__) and (o := o[SENTINEL].get(name))]:
    the set to iterate, empty when the guard is falsy. *)
Definition observers (o : entity) (name : string) : list C :=
  match registry o with
  | None => []
  | Some reg => default [] (reg !! name)
  end.

(** [for function in o: function(value)] *)
Fixpoint fanout (fs : list C) (v : pyobj) (a : gmap string pyobj) (w : W)
  : W * list invocation * option exn :=
  match fs with
  | [] => (w, [], None)
  | function :: rest =>
      match call function v a w with
      | (w1, Some e) => (w1, [Invoke function v a], Some e)
      | (w1, None) =>
          let '(w2, tr, r) := fanout rest v a w1 in
          (w2, Invoke function v a :: tr, r)
      end
  end.

(** Package the end of a fan-out as the outcome of the operation. *)
Definition finish (o : entity) (r : W * list invocation * option exn)
  : outcome unit :=
  let '(w, tr, e) := r in
  Outcome o w tr (match e with Some e => inl e | None => inr tt end).

(** [ObservableMixIn.__setattr__] *)
Definition setattr (o : entity) (name : string) (v : pyobj) (w : W)
  : outcome unit :=
  let o1 := Entity (<[name := v]> (attrs o)) (registry o) in
  finish o1 (fanout (observers o1 name) v (attrs o1) w).

(** [ObservableMixIn.__delattr__]; [super().__delattr__] raises when the
    attribute is absent. *)
Definition delattr (o : entity) (name : string) (w : W) : outcome unit :=
  match attrs o !! name with
  | None => Outcome o w [] (inl (AttributeError name))
  | Some _ =>
      let o1 := Entity (delete name (attrs o)) (registry o) in
      finish o1 (fanout (observers o1 name) DELETED (attrs o1) w)
  end.

(** The inner loop of [notify]: [function(value); count += 1]. *)
Fixpoint notify_loop (callbacks : list C) (v : pyobj)
    (a : gmap string pyobj) (w : W) (count : nat)
  : W * list invocation * (exn + nat) :=
  match callbacks with
  | [] => (w, [], inr count)
  | function :: rest =>
      match call function v a w with
      | (w1, Some e) => (w1, [Invoke function v a], inl e)
      | (w1, None) =>
          let '(w2, tr, r) := notify_loop rest v a w1 (count + 1) in
          (w2, Invoke function v a :: tr, r)
      end
  end.

(** The outer loop of [notify], from a given [count]. *)
Fixpoint notify_from (o : entity) (args : list string) (w : W) (count : nat)
  : W * list invocation * (exn + nat) :=
  match args with
  | [] => (w, [], inr count)
  | name :: rest =>
      match registry o with
      | None => (w, [], inl KeyError)       (* observable.__dict__[SENTINEL] *)
      | Some reg =>
          match reg !! name with
          | Some ((_ :: _) as callbacks) =>
              match attrs o !! name with    (* getattr(observable, name) *)
              | None => (w, [], inl (AttributeError name))
              | Some v =>
                  match notify_loop callbacks v (attrs o) w count with
                  | (w1, tr, inl e) => (w1, tr, inl e)
                  | (w1, tr, inr count1) =>
                      let '(w2, tr2, r) := notify_from o rest w1 count1 in
                      (w2, tr ++ tr2, r)
                  end
              end
          | _ => notify_from o rest w count
          end
      end
  end.

(** [notify(observable, *args)] *)
Definition notify (o : entity) (args : list string) (w : W) : outcome nat :=
  let '(w1, tr, r) := notify_from o args w 0 in
  Outcome o w1 tr r.

(** Every callable of [fs] returns normally for the value [v]. *)
Definition quiet (fs : list C) (v : pyobj) : Prop :=
  ∀ f a w, f ∈ fs → (call f v a w).2 = None.

(** The callables of [fs], called in order with [v] from the state [w],
    all return normally, and leave the state [passes fs v a w]. *)
Fixpoint passes (fs : list C) (v : pyobj) (a : gmap string pyobj) (w : W)
  : option W :=
  match fs with
  | [] => Some w
  | function :: rest =>
      match call function v a w with
      | (w1, None) => passes rest v a w1
      | (_, Some _) => None
      end
  end.

End Entity.

Arguments Entity {C}.
Arguments Invoke {C}.
Arguments Outcome {C W A}.
Arguments after {C W A}.
Arguments world {C W A}.
Arguments calls {C W A}.
Arguments result {C W A}.

(** ** Python sets of callables *)

Section PySet.
Context {A : Type} `{EqDecision A}.

(** [set.add].  Where a new element comes in the iteration order of a
    Python set is not specified; the list takes it last. *)
Definition set_add (x : A) (l : list A) : list A :=
  if decide (x ∈ l) then l else l ++ [x].

(** [set.discard] *)
Fixpoint set_discard (x : A) (l : list A) : list A :=
  match l with
  | [] => []
  | y :: l' => if decide (x = y) then set_discard x l' else y :: set_discard x l'
  end.
End PySet.

(** ** The stream bridge: [observe] (aioobserve.py:48-62)

    Generators of [state] live in a store indexed by their identity; the
    bound method [s.send] of generator [s] is the callable [s] (two bound
    methods of one generator are equal and hash alike, which is what
    [add] and [discard] rely on). *)

Definition send (s : nat) (v : pyobj) (_ : gmap string pyobj)
    (h : gmap nat bridge) : gmap nat bridge * option exn :=
  (<[s := (state_send (Update v) (h !!! s)).1]> h, None).

(** Where the asynchronous generator [observe(observable, name)] stands. *)
Inductive position :=
| Unstarted           (* created, body not entered *)
| AtWait (s : nat)    (* suspended in [await signal.wait()] *)
| AtYield (s : nat)   (* suspended at [yield] *)
| Closed.

(** What a resumption of the generator hands to its consumer. *)
Inductive handoff :=
| Yielded (v : pyobj)
| Suspended
| Raised (e : exn).

Record resumed := Resumed {
  r_entity : entity (C := nat);
  r_heap : gmap nat bridge;
  r_position : position;
  r_handoff : handoff
}.

(** [await signal.wait(); yield s.send(read)]: [Event.wait] returns at
    once when the flag is set and suspends otherwise. *)
Definition observe_wait (s : nat) (o : entity) (h : gmap nat bridge) : resumed :=
  if event (h !!! s) then
    let '(b, v) := state_send Read (h !!! s) in
    Resumed o (<[s := b]> h) (AtYield s) (Yielded v)
  else Resumed o h (AtWait s) Suspended.

(** The waiter's future was completed by [Event.set]: [wait] returns and
    the generator yields [s.send(read)]. *)
Definition observe_wake (s : nat) (o : entity) (h : gmap nat bridge) : resumed :=
  let '(b, v) := state_send Read (h !!! s) in
  Resumed o (<[s := b]> h) (AtYield s) (Yielded v).

(** The [finally] block.  An empty registry has no entry for [name], so
    the first truth test adds nothing to the lookup. *)
Definition observe_finally (name : string) (s : nat) (o : entity (C := nat))
    : entity :=
  match registry o with
  | None => o
  | Some reg =>
      match reg !! name with
      | Some ((_ :: _) as l) =>
          Entity (attrs o) (Some (<[name := set_discard s l]> reg))
      | _ => o
      end
  end.

(** First entry into the body: create and prime [s], subscribe [s.send],
    fall into the loop. *)
Definition observe_enter (name : string) (o : entity (C := nat))
    (h : gmap nat bridge) : resumed :=
  let s := fresh (dom h) in
  let h1 := <[s := state_init]> h in
  match registry o with
  | None => Resumed (observe_finally name s o) h1 Closed (Raised KeyError)
  | Some reg =>
      let subs := set_add s (default [] (reg !! name)) in
      observe_wait s (Entity (attrs o) (Some (<[name := subs]> reg))) h1
  end.


(** An exception enters the generator at its suspension point
    ([CancelledError] at the wait; [GeneratorExit] from [aclose] at the
    yield): the [finally] block runs and the exception leaves.  A
    generator that never started has no frame to unwind. *)
Definition observe_throw (name : string) (p : position) (e : exn)
    (o : entity) (h : gmap nat bridge) : resumed :=
  match p with
  | AtWait s | AtYield s => Resumed (observe_finally name s o) h Closed (Raised e)
  | Unstarted | Closed => Resumed o h Closed (Raised e)
  end.

(** [aclose()] *)
Definition observe_close (name : string) (p : position) (o : entity)
    (h : gmap nat bridge) : resumed :=
  observe_throw name p GeneratorExit o h.

(** ** The drivers [seq] and [switch] (aioobserve.py:78-97)

    One driver runs on one entity under a cooperative scheduler.  Other
    code touches the entity while the driver is suspended; the scheduler
    resumes the driver when what it waits for is ready.

    Neither driver closes its stream.  A driver that ends while the
    stream is suspended at the [yield] leaves the asynchronous generator
    as it is, its callback subscribed; the generator is closed only
    afterwards, when the event loop runs the [aclose] that its finaliser
    hook schedules for an abandoned generator ([GeneratorExit] is raised
    at the [yield]).  That later close is a step of its own,
    [Finalize].

    The handler is known to the driver by its result, or by the
    exception of the call; what it does to the entity are entity
    operations like those of any other code: those of its synchronous
    part happen before the driver comes back to its stream, those of an
    awaited result or of a task while the driver is suspended. *)

(** What [function(value)] does, as far as the driver can tell: the
    kind of the result, or the exception raised.  [isawaitable] holds
    of [Awaitable] and of [NonCoroutine]; [asyncio.create_task] accepts
    the first and raises [TypeError] for the second. *)
Inductive reply :=
| Plain                 (* a result that is not awaitable *)
| Awaitable             (* a coroutine *)
| NonCoroutine          (* awaitable, not a coroutine: a future, an object with [__await__] *)
| Raises (e : exn).

(** Operations on the entity. *)
Inductive request :=
| DoSet (name : string) (v : pyobj)
| DoDel (name : string)
| DoNotify (names : list string).

(** What the scheduler and the environment can do next. *)
Inductive action :=
| Env (r : request)     (* one entity operation is run *)
| Resume                (* the driver runs on: first start, or next [__anext__] *)
| Wake                  (* the future of [signal.wait()] is done *)
| Return                (* the awaited handler returns *)
| Throw (e : exn)       (* the awaited handler raises *)
| Finish (t : nat)      (* handler task [t] runs to its end *)
| Cancel                (* the driver's own task is cancelled *)
| Finalize.             (* the event loop closes the generator the driver left *)

(** An entity operation; its exception, if any, goes to the code that
    ran it and not to the driver. *)
Definition serve (r : request) (o : entity (C := nat)) (h : gmap nat bridge)
    : entity * gmap nat bridge :=
  match r with
  | DoSet n v => let x := setattr send o n v h in (after x, world x)
  | DoDel n => let x := delattr send o n h in (after x, world x)
  | DoNotify ns => let x := notify send o ns h in (after x, world x)
  end.

(** Handler invocations as the driver makes them. *)
Inductive mark :=
| Begin (v : pyobj)     (* [function(v)] is called *)
| End (v : pyobj)       (* the invocation for [v] has returned *)
| Abort (v : pyobj).    (* the invocation for [v] ended by an exception *)

(** *** [seq] *)

Inductive seq_at :=
| SeqNew                          (* coroutine created, not started *)
| SeqNext (s : nat)               (* running, at the head of [async for] *)
| SeqWait (s : nat)               (* suspended inside [observe], at the wait *)
| SeqAwait (s : nat) (v : pyobj)  (* suspended at [await awaitable] *)
| SeqLeft (s : nat) (e : exn)     (* left by [e]; the stream stays suspended at its [yield] *)
| SeqEnd (p : option nat) (e : exn).  (* left by [e]; the stream [p], if started, is closed *)

Record seq_machine := SeqMachine {
  q_entity : entity (C := nat);
  q_heap : gmap nat bridge;
  q_at : seq_at;
  q_journal : list mark
}.

(** *** [switch] *)

(** An [asyncio.Task] created by the driver: not done and no cancellation
    requested, cancellation requested, or done. *)
Inductive status := Active | Cancelling | Done.

#[global] Instance status_eq_dec : EqDecision status.
Proof. solve_decision. Defined.

Record task := Task { payload : pyobj; status_of : status }.

(** What the [switch] driver does with its tasks, in order. *)
Inductive deed :=
| Called (v : pyobj)              (* [function(v)] *)
| CancelCall (t : nat)            (* [task.cancel()] from the exit stack *)
| Created (t : nat) (v : pyobj).  (* [asyncio.create_task(awaitable)] *)

Inductive switch_at :=
| SwNew
| SwNext (s : nat)
| SwWait (s : nat)
| SwLeft (s : nat) (e : exn)
| SwEnd (p : option nat) (e : exn).

Record switch_machine := SwitchMachine {
  w_entity : entity (C := nat);
  w_heap : gmap nat bridge;
  w_at : switch_at;
  w_tasks : list task;       (* every task created so far, by creation index *)
  w_stack : list nat;        (* [ExitStack]: the tasks whose [cancel] is pushed, last first *)
  w_deeds : list deed
}.

(** [task.cancel()]: a request, without effect on a task that is done. *)
Definition cancel (t : nat) (ts : list task) : list task :=
  match ts !! t with
  | Some (Task v Active) => <[t := Task v Cancelling]> ts
  | _ => ts
  end.

(** [stack.close()]: pop and run every pushed callback, last pushed first. *)
Fixpoint close (stack : list nat) (ts : list task) : list task * list deed :=
  match stack with
  | [] => (ts, [])
  | t :: rest => let '(ts1, ds) := close rest (cancel t ts) in (ts1, CancelCall t :: ds)
  end.

(** A task ends: by itself, or by honouring a requested cancellation. *)
Definition finish_task (t : nat) (ts : list task) : option (list task) :=
  match ts !! t with
  | Some (Task v Active) | Some (Task v Cancelling) => Some (<[t := Task v Done]> ts)
  | _ => None
  end.

(** The tasks that are neither done nor asked to cancel. *)
Definition alive (ts : list task) : list task :=
  filter (λ t, status_of t = Active) ts.

(** The tasks that are not done ([not task.done()]), asked to cancel or
    not. *)
Definition unfinished (ts : list task) : list task :=
  filter (λ t, status_of t ≠ Done) ts.

Section Drivers.
Variable name : string.
Variable function : pyobj → reply.

(** The body of the [async for] of [seq] for one value of the stream:
    [if isawaitable(awaitable := function(value)): await awaitable]. *)
Definition seq_body (s : nat) (v : pyobj) (o : entity) (h : gmap nat bridge)
    (j : list mark) : seq_machine :=
  match function v with
  | Plain => SeqMachine o h (SeqNext s) (j ++ [Begin v; End v])
  | Awaitable | NonCoroutine => SeqMachine o h (SeqAwait s v) (j ++ [Begin v])
  | Raises e => SeqMachine o h (SeqLeft s e) (j ++ [Begin v; Abort v])
  end.

(** The driver takes what the stream handed over. *)
Definition seq_take (s : nat) (r : resumed) (j : list mark) : seq_machine :=
  match r_handoff r with
  | Yielded v => seq_body s v (r_entity r) (r_heap r) j
  | Suspended => SeqMachine (r_entity r) (r_heap r) (SeqWait s) j
  | Raised e => SeqMachine (r_entity r) (r_heap r) (SeqEnd (Some s) e) j
  end.

(** One scheduler step of the [seq] coroutine.  Entity operations run
    while the driver is suspended or over, and at the head of the loop,
    where they are those of the handler's synchronous part.  A
    cancellation that finds the driver waiting inside its stream is
    raised there, so that the [finally] block of the stream runs at
    once.  A cancellation or a failure that reaches the driver while it
    awaits the handler leaves through the coroutine and ends it, the
    stream staying suspended at its [yield] until it is finalized. *)
Definition seq_step (a : action) (m : seq_machine) : option seq_machine :=
  let o := q_entity m in
  let h := q_heap m in
  let j := q_journal m in
  match a, q_at m with
  | Env r, _ =>
      let '(o1, h1) := serve r o h in Some (SeqMachine o1 h1 (q_at m) j)
  | Resume, SeqNew =>
      Some (seq_take (fresh (dom h)) (observe_enter name o h) j)
  | Resume, SeqNext s => Some (seq_take s (observe_wait s o h) j)
  | Wake, SeqWait s =>
      if event (h !!! s) then Some (seq_take s (observe_wake s o h) j) else None
  | Return, SeqAwait s v => Some (SeqMachine o h (SeqNext s) (j ++ [End v]))
  | Throw e, SeqAwait s v => Some (SeqMachine o h (SeqLeft s e) (j ++ [Abort v]))
  | Cancel, SeqNew => Some (SeqMachine o h (SeqEnd None CancelledError) j)
  | Cancel, SeqWait s =>
      let r := observe_throw name (AtWait s) CancelledError o h in
      Some (SeqMachine (r_entity r) (r_heap r) (SeqEnd (Some s) CancelledError) j)
  | Cancel, SeqAwait s v =>
      Some (SeqMachine o h (SeqLeft s CancelledError) (j ++ [Abort v]))
  | Finalize, SeqLeft s e =>
      let r := observe_close name (AtYield s) o h in
      Some (SeqMachine (r_entity r) (r_heap r) (SeqEnd (Some s) e) j)
  | _, _ => None
  end.

(** A schedule, step by step; [None] when a step is not possible. *)
Fixpoint seq_run (l : list action) (m : seq_machine) : option seq_machine :=
  match l with
  | [] => Some m
  | a :: l' => match seq_step a m with Some m1 => seq_run l' m1 | None => None end
  end.

(** [seq(observable, name, function)]: the coroutine object. *)
Definition seq (o : entity) (h : gmap nat bridge) : seq_machine :=
  SeqMachine o h SeqNew [].

(** The body of the [async for] of [switch] for one value, inside
    [with ExitStack() as stack]. *)
Definition switch_body (s : nat) (v : pyobj) (m : switch_machine)
    : switch_machine :=
  let o := w_entity m in
  let h := w_heap m in
  match function v with
  | Plain =>
      SwitchMachine o h (SwNext s) (w_tasks m) (w_stack m) (w_deeds m ++ [Called v])
  | Awaitable =>
      let '(ts, ds) := close (w_stack m) (w_tasks m) in       (* stack.close() *)
      let t := length ts in
      SwitchMachine o h (SwNext s)
        (ts ++ [Task v Active])                               (* create_task *)
        [t]                                                   (* stack.callback(task.cancel) *)
        (w_deeds m ++ [Called v] ++ ds ++ [Created t v])
  | NonCoroutine =>
      let '(ts, ds) := close (w_stack m) (w_tasks m) in       (* stack.close() *)
      SwitchMachine o h (SwLeft s TypeError) ts []            (* create_task raises *)
        (w_deeds m ++ [Called v] ++ ds)
  | Raises e =>
      let '(ts, ds) := close (w_stack m) (w_tasks m) in       (* leaving [with] *)
      SwitchMachine o h (SwLeft s e) ts [] (w_deeds m ++ [Called v] ++ ds)
  end.

(** The driver takes what the stream handed over; an exception of the
    stream leaves through the [with] block, which closes the stack. *)
Definition switch_take (s : nat) (r : resumed) (m : switch_machine)
    : switch_machine :=
  let m1 := SwitchMachine (r_entity r) (r_heap r) (w_at m) (w_tasks m)
              (w_stack m) (w_deeds m) in
  match r_handoff r with
  | Yielded v => switch_body s v m1
  | Suspended =>
      SwitchMachine (r_entity r) (r_heap r) (SwWait s) (w_tasks m) (w_stack m)
        (w_deeds m)
  | Raised e =>
      let '(ts, ds) := close (w_stack m) (w_tasks m) in
      SwitchMachine (r_entity r) (r_heap r) (SwEnd (Some s) e) ts []
        (w_deeds m ++ ds)
  end.

(** One scheduler step of the [switch] coroutine.  The driver suspends
    only inside its stream; its tasks advance while it is suspended or
    over. *)
Definition switch_step (a : action) (m : switch_machine) : option switch_machine :=
  let o := w_entity m in
  let h := w_heap m in
  match a, w_at m with
  | Env r, _ =>
      let '(o1, h1) := serve r o h in
      Some (SwitchMachine o1 h1 (w_at m) (w_tasks m) (w_stack m) (w_deeds m))
  | Finish t, (SwNew | SwWait _ | SwLeft _ _ | SwEnd _ _) =>
      ts ← finish_task t (w_tasks m);
      Some (SwitchMachine o h (w_at m) ts (w_stack m) (w_deeds m))
  | Resume, SwNew => Some (switch_take (fresh (dom h)) (observe_enter name o h) m)
  | Resume, SwNext s => Some (switch_take s (observe_wait s o h) m)
  | Wake, SwWait s =>
      if event (h !!! s) then Some (switch_take s (observe_wake s o h) m) else None
  | Cancel, SwNew =>
      Some (SwitchMachine o h (SwEnd None CancelledError) (w_tasks m) (w_stack m)
              (w_deeds m))
  | Cancel, SwWait s =>
      let r := observe_throw name (AtWait s) CancelledError o h in
      let '(ts, ds) := close (w_stack m) (w_tasks m) in
      Some (SwitchMachine (r_entity r) (r_heap r) (SwEnd (Some s) CancelledError)
              ts [] (w_deeds m ++ ds))
  | Finalize, SwLeft s e =>
      let r := observe_close name (AtYield s) o h in
      Some (SwitchMachine (r_entity r) (r_heap r) (SwEnd (Some s) e) (w_tasks m)
              (w_stack m) (w_deeds m))
  | _, _ => None
  end.

(** A schedule, step by step; [None] when a step is not possible. *)
Fixpoint switch_run (l : list action) (m : switch_machine) : option switch_machine :=
  match l with
  | [] => Some m
  | a :: l' => match switch_step a m with Some m1 => switch_run l' m1 | None => None end
  end.

(** [switch(observable, name, function)]: the coroutine object. *)
Definition switch (o : entity) (h : gmap nat bridge) : switch_machine :=
  SwitchMachine o h SwNew [] [] [].

End Drivers.

(** ** Callables for concrete runs

    A [Spy] appends what it receives to a log; a [Faulty] callable raises. *)
Inductive probe :=
| Spy (k : nat)
| Faulty (k : nat).

Definition probe_call (c : probe) (v : pyobj) (_ : gmap string pyobj)
    (log : list (nat * pyobj)) : list (nat * pyobj) * option exn :=
  match c with
  | Spy k => (log ++ [(k, v)], None)
  | Faulty k => (log, Some (Failure k))
  end.

(** A handler that is a coroutine function for [1] and an ordinary
    function otherwise. *)
Definition sometimes_async (v : pyobj) : reply :=
  if decide (v = PInt 1) then Awaitable else Plain.

(** A handler that is a coroutine function. *)
Definition always_async (_ : pyobj) : reply := Awaitable.

(** A handler that raises. *)
Definition always_failing (_ : pyobj) : reply := Raises (Failure 0).

(** A handler that returns a coroutine for [1] and a future otherwise. *)
Definition coroutine_then_future (v : pyobj) : reply :=
  if decide (v = PInt 1) then Awaitable else NonCoroutine.

(** An initialised entity without attributes or subscribers. *)
Definition blank {C : Type} : entity (C := C) := Entity ∅ (Some ∅).

(** Overlap check for a journal: [track busy j] follows the marks of [j]
    from a state where [busy] is the invocation in progress, and fails as
    soon as an invocation begins while another is in progress or an end
    does not match. *)
Fixpoint track (busy : option pyobj) (j : list mark) : option (option pyobj) :=
  match j, busy with
  | [], _ => Some busy
  | Begin v :: j', None => track (Some v) j'
  | Begin _ :: _, Some _ => None
  | (End v | Abort v) :: j', Some u => if decide (u = v) then track None j' else None
  | (End _ | Abort _) :: _, None => None
  end.

Definition sequential (j : list mark) : Prop := is_Some (track None j).

(** The invocation a [seq] driver is in the middle of. *)
Definition seq_busy (p : seq_at) : option pyobj :=
  match p with
  | SeqAwait _ v => Some v
  | _ => None
  end.

(** A driver that has ended and whose stream is closed holds no
    subscription under [name]. *)
Definition seq_released (name : string) (m : seq_machine) : Prop :=
  ∀ s e, q_at m = SeqEnd (Some s) e → s ∉ observers (q_entity m) name.

Definition switch_released (name : string) (m : switch_machine) : Prop :=
  ∀ s e, w_at m = SwEnd (Some s) e → s ∉ observers (w_entity m) name.

(** Every task that is still active has its [cancel] on the exit stack,
    alone. *)
Definition switch_guarded (m : switch_machine) : Prop :=
  ∀ t k, w_tasks m !! t = Some k → status_of k = Active → w_stack m = [t].

(** The journal of a [seq] driver is free of overlap and its last open
    invocation, if any, is the one the driver is awaiting. *)
Definition seq_tracked (m : seq_machine) : Prop :=
  track None (q_journal m) = Some (seq_busy (q_at m)).

(** Assignments of the values [vs] to [name] by other code, in order. *)
Definition arrivals (name : string) (vs : list pyobj) : list action :=
  map (λ v, Env (DoSet name v)) vs.

(** The marks that close the invocation for [v] within the step that
    began it. *)
Definition closing (function : pyobj → reply) (v : pyobj) : list mark :=
  match function v with
  | Plain => [End v]
  | Awaitable | NonCoroutine => []
  | Raises _ => [Abort v]
  end.

(** What holds of a [switch] driver in every state: an active task is
    guarded by the exit stack, and outside the [with] block the stack is
    empty. *)
Definition switch_invariant (m : switch_machine) : Prop :=
  switch_guarded m
  ∧ match w_at m with
    | SwNew | SwLeft _ _ | SwEnd _ _ => w_stack m = []
    | _ => True
    end.

(** ** Concrete entities and driver states *)

(** An initialised entity whose attribute "x" has no value yet and is
    observed by the stream of generator [0]. *)
Definition watched : entity (C := nat) := Entity ∅ (Some {["x" := [0]]}).

(** "x" holds 5; of its subscribers the second one raises. *)
Definition fragile : entity (C := probe) :=
  Entity {["x" := PInt 5]} (Some {["x" := [Spy 2; Faulty 0; Spy 1]]}).

(** "x" holds 5; the subscribers that raise come first, in either order. *)
Definition brittle (a b : nat) : entity (C := probe) :=
  Entity {["x" := PInt 5]} (Some {["x" := [Faulty a; Faulty b]]}).

(** "x" holds 5 and has two well-behaved subscribers. *)
Definition tidy : entity (C := probe) :=
  Entity {["x" := PInt 5]} (Some {["x" := [Spy 1; Spy 2]]}).

(** A [seq] driver on [watched], awaiting the handler it called with 1. *)
Definition seq_midway : seq_machine :=
  SeqMachine watched {[0 := Bridge (PInt 1) false]} (SeqAwait 0 (PInt 1))
    [Begin (PInt 1)].

(** A [switch] driver on [watched] with one active task, woken for 2. *)
Definition switch_midway : switch_machine :=
  SwitchMachine watched {[0 := Bridge (PInt 2) true]} (SwWait 0)
    [Task (PInt 1) Active] [0] [Called (PInt 1); Created 0 (PInt 1)].



(** A run in which "x" becomes 1 and is taken by the driver. *)
Definition takes_one : list action :=
  [Resume; Env (DoSet "x" (PInt 1)); Wake].

(** A run in which "x" becomes 2 and the handler, called with 2,
    assigns 3 before the driver comes back to its stream. *)
Definition reassigning : list action :=
  [Resume; Env (DoSet "x" (PInt 2)); Wake; Env (DoSet "x" (PInt 3)); Resume].

(** The callables an assignment of 2 to "x" calls in the state [m]. *)
Definition seq_called (m : seq_machine) : list nat :=
  map callee (calls (setattr send (q_entity m) "x" (PInt 2) (q_heap m))).

Definition switch_called (m : switch_machine) : list nat :=
  map callee (calls (setattr send (w_entity m) "x" (PInt 2) (w_heap m))).

(** A run in which "mode" becomes 1, is taken by the driver, and then
    becomes 2 and is taken again. *)
Definition one_then_two : list action :=
  [Resume; Env (DoSet "mode" (PInt 1)); Wake; Resume;
   Env (DoSet "mode" (PInt 2)); Wake].

(** ** Further operations and measures *)

(** [ObservableMixIn.__init__] (aioobserve.py:24-26): the registry, an
    empty [defaultdict(set)], is written into [__dict__] directly, so
    nothing is dispatched and the attributes stay. *)
Definition init {C : Type} (o : entity (C := C)) : entity (C := C) :=
  Entity (attrs o) (Some ∅).

(** The [state] generator after the messages [ms], sent in order. *)
Definition state_run (ms : list msg) (s : bridge) : bridge :=
  foldl (λ s m, (state_send m s).1) s ms.

(** The value of the last [Update] among [ms]. *)
Fixpoint last_update (ms : list msg) : option pyobj :=
  match ms with
  | [] => None
  | m :: ms' =>
      match last_update ms' with
      | Some v => Some v
      | None => match m with Update v => Some v | Read => None end
      end
  end.

(** Whether a name has a subscriber, which is what [notify] tests. *)
Definition observed {C : Type} (o : entity (C := C)) (name : string) : bool :=
  match observers o name with
  | [] => false
  | _ :: _ => true
  end.

(** The generator behind the stream of a driver that is under way. *)
Definition seq_stream (p : seq_at) : option nat :=
  match p with
  | SeqNext s | SeqWait s | SeqAwait s _ => Some s
  | SeqNew | SeqLeft _ _ | SeqEnd _ _ => None
  end.

Definition switch_stream (p : switch_at) : option nat :=
  match p with
  | SwNext s | SwWait s => Some s
  | SwNew | SwLeft _ _ | SwEnd _ _ => None
  end.

(** The generator of a stream that is started and not closed: that of a
    driver under way, or the one a driver left behind. *)
Definition seq_open (p : seq_at) : option nat :=
  match p with
  | SeqNext s | SeqWait s | SeqAwait s _ | SeqLeft s _ => Some s
  | SeqNew | SeqEnd _ _ => None
  end.

Definition switch_open (p : switch_at) : option nat :=
  match p with
  | SwNext s | SwWait s | SwLeft s _ => Some s
  | SwNew | SwEnd _ _ => None
  end.

(** The callback of a stream that is not closed is subscribed under
    [name]. *)
Definition seq_subscribed (name : string) (m : seq_machine) : Prop :=
  ∀ s, seq_open (q_at m) = Some s → s ∈ observers (q_entity m) name.

Definition switch_subscribed (name : string) (m : switch_machine) : Prop :=
  ∀ s, switch_open (w_at m) = Some s → s ∈ observers (w_entity m) name.

(** One assignment of [v] to [name] that a waiting [seq] driver takes
    and whose handler invocation it sees through before the next one. *)
Definition round (function : pyobj → reply) (name : string) (v : pyobj)
    : list action :=
  [Env (DoSet name v); Wake]
  ++ match function v with Awaitable | NonCoroutine => [Return] | _ => [] end
  ++ [Resume].

(** How many handler invocations a journal begins. *)
Definition begins (j : list mark) : nat :=
  length (List.filter (λ k, match k with Begin _ => true | _ => false end) j).

(** How many entity operations a schedule holds. *)
Definition requests (l : list action) : nat :=
  length (List.filter (λ a, match a with Env _ => true | _ => false end) l).

(** 1 when the slot of the driver's stream holds an undelivered value. *)
Definition seq_pending (m : seq_machine) : nat :=
  match seq_stream (q_at m) with
  | Some s => if event (q_heap m !!! s) then 1 else 0
  | None => 0
  end.

(** How many tasks the deeds of a [switch] driver created. *)
Definition created (ds : list deed) : nat :=
  length (List.filter (λ d, match d with Created _ _ => true | _ => false end) ds).

(** The values an entity operation hands out are among [V]. *)
Definition admits (V : pyobj → Prop) (a : action) : Prop :=
  match a with
  | Env (DoSet _ v) => V v
  | Env (DoDel _) => V DELETED
  | _ => True
  end.

(** Every attribute value, every undelivered value in a slot and every
    value the handler was invoked with is among [V]. *)
Definition seq_vouched (V : pyobj → Prop) (m : seq_machine) : Prop :=
  (∀ n u, attrs (q_entity m) !! n = Some u → V u)
  ∧ (∀ b, event (q_heap m !!! b) = true → V (value (q_heap m !!! b)))
  ∧ (∀ v, Begin v ∈ q_journal m → V v).

(** The tasks of a [switch] driver are those its deeds created, and its
    exit stack is empty or holds the task created last. *)
Definition switch_accounted (m : switch_machine) : Prop :=
  created (w_deeds m) = length (w_tasks m)
  ∧ (w_stack m = [] ∨ w_stack m = [length (w_tasks m) - 1] ∧ w_tasks m ≠ []).

(** Every subscribed callback belongs to a generator in the store. *)
Definition seq_housed (m : seq_machine) : Prop :=
  ∀ n b, b ∈ observers (q_entity m) n → is_Some (q_heap m !! b).

(** The callback of the driver's stream is subscribed under no other
    name than the driver's. *)
Definition seq_single_name (name : string) (m : seq_machine) : Prop :=
  ∀ s n, seq_stream (q_at m) = Some s → n ≠ name → s ∉ observers (q_entity m) n.

(** An object on which [__init__] has not run. *)
Definition raw : entity (C := nat) := Entity ∅ None.

(** An initialised entity whose "x" holds 5, without subscribers. *)
Definition valued : entity (C := nat) := Entity {["x" := PInt 5]} (Some ∅).

(** "x" holds 5 and is observed by the streams of generators 0 and 1. *)
Definition paired : entity (C := nat) :=
  Entity {["x" := PInt 5]} (Some {["x" := [0; 1]]}).

(** "x" holds 5 and has a subscriber; "z" has a subscriber and no value. *)
Definition lopsided : entity (C := probe) :=
  Entity {["x" := PInt 5]} (Some {["x" := [Spy 1]; "z" := [Spy 2]]}).

(** A [seq] driver on [watched] that waits with an empty slot. *)
Definition seq_waiting : seq_machine :=
  SeqMachine watched {[0 := state_init]} (SeqWait 0) [].

(** The values 1 and 2. *)
Definition one_or_two (v : pyobj) : Prop := v = PInt 1 ∨ v = PInt 2.

(** * Properties *)

(** ** Fan-out *)

Section EntityFacts.
Context {C W : Type}.
Variable call : C → pyobj → gmap string pyobj → W → W * option exn.

Lemma fanout_quiet fs v a w :
  quiet call fs v →
  (fanout call fs v a w).1.2 = map (λ f, Invoke f v a) fs
  ∧ (fanout call fs v a w).2 = None.
Proof.
  revert w. induction fs as [|f fs IH]; intros w Hq; [done|].
  simpl. pose proof (Hq f a w (list_elem_of_here _ _)) as Hf.
  destruct (call f v a w) as [w1 [e|]]; simpl in Hf; [done|].
  destruct (IH w1) as [IH1 IH2].
  { intros g b w' Hg. apply Hq. by apply list_elem_of_further. }
  destruct (fanout call fs v a w1) as [[w2 tr] r]. simpl in *. by subst.
Qed.

Lemma fanout_calls fs v a w i :
  i ∈ (fanout call fs v a w).1.2 → callee i ∈ fs ∧ arg i = v ∧ seen i = a.
Proof.
  revert w. induction fs as [|f fs IH]; intros w; simpl; [by intros ?%not_elem_of_nil|].
  destruct (call f v a w) as [w1 [e|]]; simpl.
  - intros ->%list_elem_of_singleton. simpl. split; [left|done].
  - specialize (IH w1). destruct (fanout call fs v a w1) as [[w2 tr] r]. simpl in *.
    intros [->|Hin]%elem_of_cons.
    + simpl. split; [left|done].
    + destruct (IH Hin) as (?&?&?). split; [by right|done].
Qed.

(** The inner loop of [notify] is the fan-out with a counter. *)
Lemma notify_loop_fanout fs v a w n :
  notify_loop call fs v a w n =
    ((fanout call fs v a w).1,
     match (fanout call fs v a w).2 with
     | Some e => inl e
     | None => inr (n + length fs)
     end).
Proof.
  revert w n. induction fs as [|f fs IH]; intros w n; simpl.
  - by rewrite Nat.add_0_r.
  - destruct (call f v a w) as [w1 [e|]]; [done|].
    rewrite IH. destruct (fanout call fs v a w1) as [[w2 tr] [e|]]; simpl; [done|].
    do 2 f_equal. lia.
Qed.

Lemma finish_after (o : entity (C := C)) (r : W * list invocation * option exn) :
  after (finish o r) = o.
Proof. by destruct r as [[? ?] ?]. Qed.

Lemma finish_calls (o : entity (C := C)) (r : W * list invocation * option exn) :
  calls (finish o r) = r.1.2.
Proof. by destruct r as [[? ?] ?]. Qed.

Lemma finish_world (o : entity (C := C)) (r : W * list invocation * option exn) :
  world (finish o r) = r.1.1.
Proof. by destruct r as [[? ?] ?]. Qed.

Lemma finish_result (o : entity (C := C)) (r : W * list invocation * option exn) :
  result (finish o r) = match r.2 with Some e => inl e | None => inr tt end.
Proof. by destruct r as [[? ?] ?]. Qed.

Lemma observers_cons (o : entity (C := C)) name f fs :
  observers o name = f :: fs →
  ∃ reg, registry o = Some reg ∧ reg !! name = Some (f :: fs).
Proof.
  unfold observers. destruct (registry o) as [reg|]; [|done].
  destruct (reg !! name) as [l|] eqn:E; simpl; [|done]. intros ->. eauto.
Qed.


Lemma fanout_prefix fs v a w :
  map callee (fanout call fs v a w).1.2 `prefix_of` fs
  ∧ ((fanout call fs v a w).2 = None → map callee (fanout call fs v a w).1.2 = fs).
Proof.
  revert w. induction fs as [|f fs IH]; intros w; simpl; [done|].
  destruct (call f v a w) as [w1 [e|]]; simpl.
  - split; [|done]. apply prefix_cons, prefix_nil.
  - destruct (IH w1) as [IH1 IH2].
    destruct (fanout call fs v a w1) as [[w2 tr] r]. simpl in *.
    split; [by apply prefix_cons|]. intros Hr. by rewrite IH2.
Qed.

Lemma fanout_head fs v a w : head (map callee (fanout call fs v a w).1.2) = head fs.
Proof.
  destruct fs as [|f fs]; simpl; [done|].
  destruct (call f v a w) as [w1 [e|]]; [done|].
  by destruct (fanout call fs v a w1) as [[w2 tr] r].
Qed.

(** When all of [fs] return, the fan-out calls all of them. *)
Lemma fanout_passes fs v a w w1 :
  passes call fs v a w = Some w1 →
  fanout call fs v a w = (w1, map (λ f, Invoke f v a) fs, None).
Proof.
  revert w. induction fs as [|f fs IH]; intros w; simpl; [by intros [= ->]|].
  destruct (call f v a w) as [w2 [e|]]; [done|]. intros Hp. by rewrite (IH w2 Hp).
Qed.

(** The fan-out ends with the first callable that raises. *)
Lemma fanout_raises pre f post v a w w1 e :
  passes call pre v a w = Some w1 →
  (call f v a w1).2 = Some e →
  fanout call (pre ++ f :: post) v a w
    = ((call f v a w1).1, map (λ g, Invoke g v a) (pre ++ [f]), Some e).
Proof.
  revert w. induction pre as [|g pre IH]; intros w; simpl.
  - intros [= ->] Hf. destruct (call f v a w1) as [w2 [e'|]]; simpl in *; by simplify_eq.
  - destruct (call g v a w) as [w2 [e'|]]; [done|]. intros Hp Hf.
    by rewrite (IH w2 Hp Hf).
Qed.





(** C5 (as amended): [notify] on a name without a value calls nobody
    and changes nothing.  On an initialised entity it raises
    [AttributeError] exactly when that name has a subscriber, and
    returns the count 0 when it has none; on an object without registry
    the lookup of the registry raises [KeyError] before that. *)
Theorem notify_missing_attribute (o : entity (C := C)) name w :
  attrs o !! name = None →
  calls (notify call o [name] w) = []
  ∧ world (notify call o [name] w) = w
  ∧ after (notify call o [name] w) = o
  ∧ result (notify call o [name] w) =
      match registry o with
      | None => inl KeyError
      | Some _ =>
          match observers o name with
          | [] => inr 0
          | _ :: _ => inl (AttributeError name)
          end
      end.
Proof.
  intros Ha. unfold notify, observers. simpl. rewrite Ha.
  destruct (registry o) as [reg|]; [|done].
  destruct (reg !! name) as [[|f fs]|]; done.
Qed.

(** C6 (as amended): when a subscriber raises during the fan-out of a
    set, a delete or a notify - the subscribers before it in iteration
    order having returned in that same fan-out - the exception leaves
    the operation: the subscribers before it and the raising one are the
    only ones invoked, those after it are not; the attribute change of
    the set or the delete has already taken place. *)
Theorem fanout_interrupted_by_failure (o : entity (C := C)) name pre f post e w :
  observers o name = pre ++ f :: post →
  (∀ v w1,
      passes call pre v (<[name := v]> (attrs o)) w = Some w1 →
      (call f v (<[name := v]> (attrs o)) w1).2 = Some e →
      let x := setattr call o name v w in
      result x = inl e ∧ map callee (calls x) = pre ++ [f]
      ∧ attrs (after x) !! name = Some v)
  ∧ (∀ u w1, attrs o !! name = Some u →
      passes call pre DELETED (delete name (attrs o)) w = Some w1 →
      (call f DELETED (delete name (attrs o)) w1).2 = Some e →
      let x := delattr call o name w in
      result x = inl e ∧ map callee (calls x) = pre ++ [f]
      ∧ attrs (after x) !! name = None)
  ∧ (∀ u w1, attrs o !! name = Some u →
      passes call pre u (attrs o) w = Some w1 →
      (call f u (attrs o) w1).2 = Some e →
      let x := notify call o [name] w in
      result x = inl e ∧ map callee (calls x) = pre ++ [f] ∧ after x = o).
Proof.
  intros Hobs.
  assert (Hmap : ∀ v a, map callee (map (λ g, Invoke g v a) (pre ++ [f])) = pre ++ [f]).
  { intros v a. rewrite map_map. simpl. apply map_id. }
  split; [|split].
  - intros v w1 Hp Hf x. subst x. unfold setattr.
    rewrite finish_result, finish_calls, finish_after. simpl.
    change (observers (Entity (<[name:=v]> (attrs o)) (registry o)) name)
      with (observers o name). rewrite Hobs.
    rewrite (fanout_raises _ _ _ _ _ _ _ _ Hp Hf). cbn [fst snd].
    rewrite Hmap. by rewrite lookup_insert_eq.
  - intros u w1 Hu Hp Hf x. subst x. unfold delattr. rewrite Hu.
    rewrite finish_result, finish_calls, finish_after. simpl.
    change (observers (Entity (delete name (attrs o)) (registry o)) name)
      with (observers o name). rewrite Hobs.
    rewrite (fanout_raises _ _ _ _ _ _ _ _ Hp Hf). cbn [fst snd].
    rewrite Hmap. by rewrite lookup_delete_eq.
  - intros u w1 Hu Hp Hf x. subst x. unfold notify. simpl.
    destruct (pre ++ f :: post) as [|g gs] eqn:El; [by destruct pre|].
    destruct (observers_cons _ _ _ _ Hobs) as (reg & -> & ->). rewrite Hu.
    rewrite notify_loop_fanout, <-El.
    rewrite (fanout_raises _ _ _ _ _ _ _ _ Hp Hf). cbn [fst snd calls result after].
    by rewrite Hmap.
Qed.

(** C7 (as amended): deleting an attribute that is set removes it and
    then calls the subscribers of the name with [DELETED], in iteration
    order: all of them when each returns, and those up to the first one
    that raises otherwise, whose exception leaves the delete.  Under
    [==] the marker equals no [None], no boolean, no integer, no string
    and no other plain object; the values equal to it are the marker
    itself and the objects whose own [__eq__] says so. *)
Theorem delattr_dispatches_DELETED (o : entity (C := C)) name u w :
  attrs o !! name = Some u →
  let x := delattr call o name w in
  attrs (after x) = delete name (attrs o)
  ∧ registry (after x) = registry o
  ∧ (∀ i, i ∈ calls x → arg i = DELETED ∧ seen i = delete name (attrs o))
  ∧ head (map callee (calls x)) = head (observers o name)
  ∧ (∀ w1, passes call (observers o name) DELETED (delete name (attrs o)) w = Some w1 →
       result x = inr tt
       ∧ calls x = map (λ f, Invoke f DELETED (delete name (attrs o))) (observers o name))
  ∧ (∀ pre f post w1 e,
       observers o name = pre ++ f :: post →
       passes call pre DELETED (delete name (attrs o)) w = Some w1 →
       (call f DELETED (delete name (attrs o)) w1).2 = Some e →
       result x = inl e ∧ map callee (calls x) = pre ++ [f])
  ∧ (result x = inr tt → map callee (calls x) = observers o name)
  ∧ (∀ v, py_eq v DELETED = true ↔ v = DELETED ∨ v = PAny)
  ∧ (∀ v, py_eq DELETED v = py_eq v DELETED)
  ∧ py_eq (PInt 0) DELETED = false
  ∧ py_eq (PStr "") DELETED = false
  ∧ py_eq PNone DELETED = false
  ∧ py_eq (PBool false) DELETED = false.
Proof.
  intros Hu x. subst x. unfold delattr. rewrite Hu.
  rewrite finish_result, finish_calls, finish_after. cbn [attrs registry].
  change (observers (Entity (delete name (attrs o)) (registry o)) name)
    with (observers o name).
  split; [done|]. split; [done|]. split.
  { intros i Hi. by destruct (fanout_calls _ _ _ _ _ Hi) as (_ & ? & ?). }
  split; [apply fanout_head|]. split.
  { intros w1 Hp. by rewrite (fanout_passes _ _ _ _ _ Hp). }
  split.
  { intros pre f post w1 e -> Hp Hf. rewrite (fanout_raises _ _ _ _ _ _ _ _ Hp Hf).
    cbn [fst snd]. split; [done|]. rewrite map_map. apply map_id. }
  split.
  { intros Hr. apply fanout_prefix. by destruct (fanout call _ _ _ _).2. }
  split.
  { intros v. split.
    - destruct v as [| | | |id|]; cbv [py_eq DELETED]; try done; [|by right].
      intros ->%Pos.eqb_eq. by left.
    - by intros [-> | ->]. }
  split; [|done]. intros [| | | |id|]; try done.
  cbv [py_eq DELETED]. apply Pos.eqb_sym.
Qed.



End EntityFacts.

(** ** The stream bridge *)

Lemma send_quiet fs v : quiet send fs v.
Proof. by intros f a w _. Qed.

Lemma fanout_send_in fs v a (h : gmap nat bridge) s :
  s ∈ fs → (fanout send fs v a h).1.1 !!! s = Bridge v true.
Proof.
  revert h. induction fs as [|f fs IH]; intros h; [by intros ?%not_elem_of_nil|].
  intros Hin. cbn [fanout send]. specialize (IH (<[f:=(state_send (Update v) (h !!! f)).1]> h)).
  destruct (fanout send fs v a _) as [[h2 tr] r] eqn:Ef. cbn [fst] in *.
  destruct (decide (s ∈ fs)) as [Hs|Hs]; [by apply IH|].
  apply elem_of_cons in Hin as [->|?]; [|done].
  clear IH. revert h h2 tr r Ef.
  induction fs as [|g fs IH]; intros h h2 tr r Ef.
  - cbn in Ef. simplify_eq. by rewrite lookup_total_insert_eq.
  - cbn [fanout send] in Ef.
    destruct (fanout send fs v a _) as [[h3 tr3] r3] eqn:Eg. simplify_eq.
    apply not_elem_of_cons in Hs as [Hne Hs].
    rewrite insert_insert_ne in Eg by done.
    by eapply (IH Hs (<[g:=(state_send (Update v) (<[f:=_]> h !!! g)).1]> h)).
Qed.

Lemma fanout_send_out fs v a (h : gmap nat bridge) s :
  s ∉ fs → (fanout send fs v a h).1.1 !!! s = h !!! s.
Proof.
  revert h. induction fs as [|f fs IH]; intros h Hs; [done|].
  apply not_elem_of_cons in Hs as [Hne Hs]. cbn [fanout send].
  specialize (IH (<[f:=(state_send (Update v) (h !!! f)).1]> h) Hs).
  destruct (fanout send fs v a _) as [[h2 tr] r]. cbn [fst] in *.
  by rewrite IH, lookup_total_insert_ne.
Qed.

Lemma setattr_send_calls (o : entity) name v h :
  calls (setattr send o name v h) =
    map (λ f, Invoke f v (<[name := v]> (attrs o))) (observers o name).
Proof.
  unfold setattr. rewrite finish_calls.
  change (observers (Entity (<[name:=v]> (attrs o)) (registry o)) name)
    with (observers o name). cbn [attrs].
  by destruct (fanout_quiet send (observers o name) v (<[name := v]> (attrs o)) h
                 (send_quiet _ _)) as [-> _].
Qed.

Lemma setattr_registry {C W} (call : C → pyobj → gmap string pyobj → W → W * option exn)
    (o : entity) name v w :
  registry (after (setattr call o name v w)) = registry o.
Proof. unfold setattr. by rewrite finish_after. Qed.

Lemma setattr_observers {C W} (call : C → pyobj → gmap string pyobj → W → W * option exn)
    (o : entity) name v w n :
  observers (after (setattr call o name v w)) n = observers o n.
Proof. unfold observers. by rewrite setattr_registry. Qed.

Lemma setattr_send_in (o : entity) name v h s :
  s ∈ observers o name → world (setattr send o name v h) !!! s = Bridge v true.
Proof. intros Hs. unfold setattr. rewrite finish_world. by apply fanout_send_in. Qed.

Lemma setattr_send_out (o : entity) name v h s :
  s ∉ observers o name → world (setattr send o name v h) !!! s = h !!! s.
Proof. intros Hs. unfold setattr. rewrite finish_world. by apply fanout_send_out. Qed.

Lemma set_discard_gone {A} `{EqDecision A} (x : A) l : x ∉ set_discard x l.
Proof.
  induction l as [|y l IH]; simpl; [apply not_elem_of_nil|].
  case_decide; [done|]. apply not_elem_of_cons. split; [done|apply IH].
Qed.

Lemma observe_finally_gone name s (o : entity) :
  s ∉ observers (observe_finally name s o) name.
Proof.
  unfold observe_finally, observers.
  destruct (registry o) as [reg|] eqn:Er; [|rewrite Er; apply not_elem_of_nil].
  destruct (reg !! name) as [[|f fs]|] eqn:En; cbn [registry]; rewrite ?Er, ?En;
    try apply not_elem_of_nil.
  rewrite lookup_insert_eq. apply set_discard_gone.
Qed.

Lemma set_add_in {A} `{EqDecision A} (x : A) l : x ∈ set_add x l.
Proof.
  unfold set_add. case_decide; [done|]. apply elem_of_app. right. left.
Qed.

Lemma observers_insert (a : gmap string pyobj) (reg : gmap string (list nat)) name subs n :
  observers (Entity a (Some (<[name := subs]> reg))) n =
    if decide (name = n) then subs else default [] (reg !! n).
Proof.
  unfold observers. cbn [registry]. case_decide as Hn.
  - subst n. by rewrite lookup_insert_eq.
  - by rewrite lookup_insert_ne.
Qed.

Lemma observe_wait_handoff s (o : entity) h :
  r_entity (observe_wait s o h) = o
  ∧ ∀ e, r_handoff (observe_wait s o h) ≠ Raised e.
Proof. unfold observe_wait. by destruct (event (h !!! s)). Qed.

Lemma observe_enter_raised name (o : entity) h e :
  r_handoff (observe_enter name o h) = Raised e →
  fresh (dom h) ∉ observers (r_entity (observe_enter name o h)) name.
Proof.
  unfold observe_enter. destruct (registry o) as [reg|] eqn:Er.
  - intros H. by apply observe_wait_handoff in H.
  - intros _. apply observe_finally_gone.
Qed.

Lemma observe_enter_subscribes name (o : entity) h :
  (∀ e, r_handoff (observe_enter name o h) ≠ Raised e) →
  fresh (dom h) ∈ observers (r_entity (observe_enter name o h)) name.
Proof.
  unfold observe_enter. destruct (registry o) as [reg|] eqn:Er.
  - intros _. destruct (observe_wait_handoff (fresh (dom h))
      (Entity (attrs o) (Some (<[name:=set_add (fresh (dom h)) (default [] (reg !! name))]> reg)))
      (<[fresh (dom h):=state_init]> h)) as [-> _].
    rewrite observers_insert, decide_True by done. apply set_add_in.
  - intros H. by destruct (H KeyError).
Qed.


Lemma serve_observers r (o : entity) h n : observers (serve r o h).1 n = observers o n.
Proof.
  destruct r as [nm v|nm|ns]; cbn [serve fst].
  - apply setattr_observers.
  - unfold delattr. destruct (attrs o !! nm); [|done]. by rewrite finish_after.
  - unfold notify. by destruct (notify_from send o ns h 0) as [[? ?] ?].
Qed.

(** ** The drivers *)

Section DriverFacts.
Variable name : string.
Variable function : pyobj → reply.

Lemma seq_run_invariant (P : seq_machine → Prop) :
  (∀ a m m', P m → seq_step name function a m = Some m' → P m') →
  ∀ l m m', P m → seq_run name function l m = Some m' → P m'.
Proof.
  intros Hstep l. induction l as [|a l IH]; intros m m' Hm; simpl.
  - by intros [= <-].
  - destruct (seq_step name function a m) as [m1|] eqn:E; [|done]. eauto.
Qed.

Lemma seq_run_app l1 l2 m :
  seq_run name function (l1 ++ l2) m =
    seq_run name function l1 m ≫= seq_run name function l2.
Proof.
  revert m. induction l1 as [|a l1 IH]; intros m; simpl; [done|].
  by destruct (seq_step name function a m).
Qed.

Lemma seq_take_released s r j :
  (∀ e, r_handoff r = Raised e → s ∉ observers (r_entity r) name) →
  seq_released name (seq_take function s r j).
Proof.
  intros Hr. unfold seq_take, seq_body.
  destruct (r_handoff r) as [v| |e] eqn:E; [destruct (function v)| |];
    intros s' e' H; simplify_eq/=; eauto.
Qed.

Lemma seq_step_released a m m' :
  seq_released name m → seq_step name function a m = Some m' → seq_released name m'.
Proof.
  intros Hm. unfold seq_step.
  destruct a, (q_at m) eqn:Eat; try done;
    try (destruct (serve r (q_entity m) (q_heap m)) as [o1 h1] eqn:Es;
         intros [= <-]; intros s' e' H; cbn in *;
         replace o1 with (serve r (q_entity m) (q_heap m)).1 by (by rewrite Es);
         rewrite serve_observers; apply (Hm s' e'); congruence);
    try (intros [= <-]; intros s' e' H; by simplify_eq/=);
    try (intros [= <-] s' e' H; simplify_eq/=; apply observe_finally_gone).
  - intros [= <-]. apply seq_take_released. apply observe_enter_raised.
  - intros [= <-]. apply seq_take_released.
    intros e H. by apply observe_wait_handoff in H.
  - destruct (event (q_heap m !!! s)); [|done]. intros [= <-].
    apply seq_take_released. by intros e.
Qed.

Lemma seq_take_subscribed s r j :
  ((∀ e, r_handoff r ≠ Raised e) → s ∈ observers (r_entity r) name) →
  seq_subscribed name (seq_take function s r j).
Proof.
  intros Hs. unfold seq_take, seq_body.
  destruct (r_handoff r) as [v| |e] eqn:Eh; [destruct (function v)| |];
    intros s' H; simplify_eq/=; by apply Hs.
Qed.

Lemma seq_step_subscribed a m m' :
  seq_subscribed name m → seq_step name function a m = Some m' →
  seq_subscribed name m'.
Proof.
  intros Hm. unfold seq_step.
  destruct a, (q_at m) eqn:Eat; try done;
    try (destruct (serve r (q_entity m) (q_heap m)) as [o1 h1] eqn:Es;
         intros [= <-]; intros s' H; cbn in *;
         replace o1 with (serve r (q_entity m) (q_heap m)).1 by (by rewrite Es);
         rewrite serve_observers; apply Hm; by rewrite Eat);
    try (intros [= <-]; intros s' H; by simplify_eq/=);
    try (intros [= <-] s' H; simplify_eq/=; apply Hm; by rewrite Eat).
  - intros [= <-]. apply seq_take_subscribed. apply observe_enter_subscribes.
  - intros [= <-]. apply seq_take_subscribed. intros _.
    destruct (observe_wait_handoff s (q_entity m) (q_heap m)) as [-> _].
    apply Hm. by rewrite Eat.
  - destruct (event (q_heap m !!! s)); [|done]. intros [= <-].
    apply seq_take_subscribed. intros _. apply Hm. by rewrite Eat.
Qed.

Lemma switch_run_invariant (P : switch_machine → Prop) :
  (∀ a m m', P m → switch_step name function a m = Some m' → P m') →
  ∀ l m m', P m → switch_run name function l m = Some m' → P m'.
Proof.
  intros Hstep l. induction l as [|a l IH]; intros m m' Hm; simpl.
  - by intros [= <-].
  - destruct (switch_step name function a m) as [m1|] eqn:E; [|done]. eauto.
Qed.

Lemma switch_take_released s r m :
  (∀ e, r_handoff r = Raised e → s ∉ observers (r_entity r) name) →
  switch_released name (switch_take function s r m).
Proof.
  intros Hr. unfold switch_take, switch_body.
  destruct (r_handoff r) as [v| |e] eqn:E; [destruct (function v)| |];
    try destruct (close _ _) as [ts ds];
    intros s' e' H; simplify_eq/=; eauto.
Qed.

Lemma switch_step_released a m m' :
  switch_released name m → switch_step name function a m = Some m' →
  switch_released name m'.
Proof.
  intros Hm. unfold switch_step.
  destruct a, (w_at m) eqn:Eat; try done;
    try (destruct (serve r (w_entity m) (w_heap m)) as [o1 h1] eqn:Es;
         intros [= <-]; intros s' e' H; cbn in *;
         replace o1 with (serve r (w_entity m) (w_heap m)).1 by (by rewrite Es);
         rewrite serve_observers; apply (Hm s' e'); congruence);
    try (destruct (finish_task t (w_tasks m)) as [ts|]; [|done];
         intros [= <-]; intros s' e' H; cbn in *; apply (Hm s' e'); congruence);
    try (intros [= <-]; intros s' e' H; by simplify_eq/=);
    try (intros [= <-] s' e' H; simplify_eq/=; apply observe_finally_gone).
  - intros [= <-]. apply switch_take_released. apply observe_enter_raised.
  - intros [= <-]. apply switch_take_released.
    intros e H. by apply observe_wait_handoff in H.
  - destruct (event (w_heap m !!! s)); [|done]. intros [= <-].
    apply switch_take_released. by intros e.
  - destruct (close (w_stack m) (w_tasks m)) as [ts ds].
    intros [= <-] s' e' H. simplify_eq/=. apply observe_finally_gone.
Qed.

Lemma switch_take_subscribed s r m :
  ((∀ e, r_handoff r ≠ Raised e) → s ∈ observers (r_entity r) name) →
  switch_subscribed name (switch_take function s r m).
Proof.
  intros Hs. unfold switch_take, switch_body.
  destruct (r_handoff r) as [v| |e] eqn:Eh; [destruct (function v)| |];
    try destruct (close _ _) as [ts ds];
    intros s' H; simplify_eq/=; by apply Hs.
Qed.

Lemma switch_step_subscribed a m m' :
  switch_subscribed name m → switch_step name function a m = Some m' →
  switch_subscribed name m'.
Proof.
  intros Hm. unfold switch_step.
  destruct a, (w_at m) eqn:Eat; try done;
    try (destruct (serve r (w_entity m) (w_heap m)) as [o1 h1] eqn:Es;
         intros [= <-]; intros s' H; cbn in *;
         replace o1 with (serve r (w_entity m) (w_heap m)).1 by (by rewrite Es);
         rewrite serve_observers; apply Hm; by rewrite Eat);
    try (destruct (finish_task t (w_tasks m)) as [ts|]; [|done];
         intros [= <-]; intros s' H; cbn in *; apply Hm; by rewrite Eat);
    try (intros [= <-]; intros s' H; by simplify_eq/=).
  - intros [= <-]. apply switch_take_subscribed. apply observe_enter_subscribes.
  - intros [= <-]. apply switch_take_subscribed. intros _.
    destruct (observe_wait_handoff s (w_entity m) (w_heap m)) as [-> _].
    apply Hm. by rewrite Eat.
  - destruct (event (w_heap m !!! s)); [|done]. intros [= <-].
    apply switch_take_subscribed. intros _. apply Hm. by rewrite Eat.
  - destruct (close (w_stack m) (w_tasks m)) as [ts ds].
    intros [= <-] s' H. by simplify_eq/=.
Qed.

Lemma seq_reachable_subscriptions l o h m :
  seq_run name function l (seq o h) = Some m →
  seq_released name m ∧ seq_subscribed name m.
Proof.
  apply (seq_run_invariant (λ m, seq_released name m ∧ seq_subscribed name m)).
  - intros a m0 m1 [? ?] Hstep. split.
    + by apply (seq_step_released a m0).
    + by apply (seq_step_subscribed a m0).
  - split; [by intros s e|by intros s].
Qed.

Lemma switch_reachable_subscriptions l o h m :
  switch_run name function l (switch o h) = Some m →
  switch_released name m ∧ switch_subscribed name m.
Proof.
  apply (switch_run_invariant (λ m, switch_released name m ∧ switch_subscribed name m)).
  - intros a m0 m1 [? ?] Hstep. split.
    + by apply (switch_step_released a m0).
    + by apply (switch_step_subscribed a m0).
  - split; [by intros s e|by intros s].
Qed.

Lemma released_never_called (o : entity) h s v :
  s ∉ observers o name →
  (s ∉ map callee (calls (setattr send o name v h)))
  ∧ world (setattr send o name v h) !!! s = h !!! s.
Proof.
  intros Hs. split; [|by apply setattr_send_out].
  rewrite setattr_send_calls, map_map. simpl. by rewrite map_id.
Qed.

Lemma subscribed_is_called (o : entity) h s v :
  s ∈ observers o name →
  s ∈ map callee (calls (setattr send o name v h)).
Proof. intros Hs. rewrite setattr_send_calls, map_map. simpl. by rewrite map_id. Qed.

End DriverFacts.

(** C2 (as amended): the callback of a stream leaves the subscriber set
    when the [finally] block of [observe] runs, that is when an
    exception enters the generator at one of its two suspension points:
    from then on the callback is out of the set and a later assignment
    does not call it.  For the two drivers of the module this happens at
    once when the driver is cancelled while it waits inside the stream.
    A driver that ends while its stream is suspended at the [yield]
    (its handler failed, or it was cancelled while awaiting the
    handler; a [switch] driver whose handler returned an awaitable that
    is no coroutine) does not close the stream: its callback is still
    subscribed and still called by an assignment, until the generator
    is finalized, which removes it.  No set, delete or notify changes a
    subscription: nothing but the [finally] block takes a callback
    out. *)
Theorem stream_exit_unsubscribes (name : string) (function : pyobj → reply) :
  (∀ p e (o : entity) h s, p = AtWait s ∨ p = AtYield s →
     let r := observe_throw name p e o h in
     r_position r = Closed
     ∧ r_handoff r = Raised e
     ∧ (s ∉ observers (r_entity r) name)
     ∧ (∀ v, (s ∉ map callee (calls (setattr send (r_entity r) name v (r_heap r))))
             ∧ world (setattr send (r_entity r) name v (r_heap r)) !!! s
               = r_heap r !!! s))
  ∧ (∀ l o h m,
       seq_run name function l (seq o h) = Some m →
       (∀ s e, q_at m = SeqEnd (Some s) e →
          (s ∉ observers (q_entity m) name)
          ∧ (∀ v, s ∉ map callee (calls (setattr send (q_entity m) name v (q_heap m)))))
       ∧ (∀ s, q_at m = SeqWait s →
          ∃ m', seq_step name function Cancel m = Some m'
                ∧ q_at m' = SeqEnd (Some s) CancelledError
                ∧ (s ∉ observers (q_entity m') name))
       ∧ (∀ s e, q_at m = SeqLeft s e →
          s ∈ observers (q_entity m) name
          ∧ (∀ v, s ∈ map callee (calls (setattr send (q_entity m) name v (q_heap m))))
          ∧ ∃ m', seq_step name function Finalize m = Some m'
                  ∧ q_at m' = SeqEnd (Some s) e
                  ∧ q_journal m' = q_journal m
                  ∧ (s ∉ observers (q_entity m') name)))
  ∧ (∀ l o h m,
       switch_run name function l (switch o h) = Some m →
       (∀ s e, w_at m = SwEnd (Some s) e →
          (s ∉ observers (w_entity m) name)
          ∧ (∀ v, s ∉ map callee (calls (setattr send (w_entity m) name v (w_heap m)))))
       ∧ (∀ s, w_at m = SwWait s →
          ∃ m', switch_step name function Cancel m = Some m'
                ∧ w_at m' = SwEnd (Some s) CancelledError
                ∧ (s ∉ observers (w_entity m') name))
       ∧ (∀ s e, w_at m = SwLeft s e →
          s ∈ observers (w_entity m) name
          ∧ (∀ v, s ∈ map callee (calls (setattr send (w_entity m) name v (w_heap m))))
          ∧ ∃ m', switch_step name function Finalize m = Some m'
                  ∧ w_at m' = SwEnd (Some s) e
                  ∧ w_deeds m' = w_deeds m
                  ∧ (s ∉ observers (w_entity m') name)))
  ∧ (∀ r (o : entity) h n, observers (serve r o h).1 n = observers o n).
Proof.
  split; [|split; [|split]]; [| | |apply serve_observers].
  - intros p e o h s Hp r.
    assert (Hr : r = Resumed (observe_finally name s o) h Closed (Raised e))
      by by destruct Hp as [-> | ->].
    rewrite Hr. cbn. repeat split; try done.
    + apply observe_finally_gone.
    + by apply released_never_called, observe_finally_gone.
    + by apply released_never_called, observe_finally_gone.
  - intros l o h m Hrun.
    destruct (seq_reachable_subscriptions name function l o h m Hrun) as [Hrel Hsub].
    split; [|split].
    + intros s e Hat. split; [exact (Hrel s e Hat)|]. intros v.
      by apply released_never_called, (Hrel s e Hat).
    + intros s Hat. unfold seq_step. rewrite Hat. eexists. split; [done|].
      cbn. split; [done|]. apply observe_finally_gone.
    + intros s e Hat.
      assert (Hs : s ∈ observers (q_entity m) name) by (apply Hsub; by rewrite Hat).
      split; [done|]. split; [intros v; by apply subscribed_is_called|].
      unfold seq_step. rewrite Hat. eexists. split; [done|].
      cbn. repeat split; try done. apply observe_finally_gone.
  - intros l o h m Hrun.
    destruct (switch_reachable_subscriptions name function l o h m Hrun) as [Hrel Hsub].
    split; [|split].
    + intros s e Hat. split; [exact (Hrel s e Hat)|]. intros v.
      by apply released_never_called, (Hrel s e Hat).
    + intros s Hat. unfold switch_step. rewrite Hat.
      destruct (close (w_stack m) (w_tasks m)) as [ts ds].
      eexists. split; [done|]. cbn. split; [done|]. apply observe_finally_gone.
    + intros s e Hat.
      assert (Hs : s ∈ observers (w_entity m) name) by (apply Hsub; by rewrite Hat).
      split; [done|]. split; [intros v; by apply subscribed_is_called|].
      unfold switch_step. rewrite Hat. eexists. split; [done|].
      cbn. repeat split; try done. apply observe_finally_gone.
Qed.

(** ** [seq] *)

Lemma track_app b j1 j2 : track b (j1 ++ j2) = track b j1 ≫= λ b', track b' j2.
Proof.
  revert b. induction j1 as [|[v|v|v] j1 IH]; intros [u|]; simpl; try done;
    case_decide; done.
Qed.

Section SeqFacts.
Variable name : string.
Variable function : pyobj → reply.

Lemma seq_body_tracked s v o h j :
  track None j = Some None → seq_tracked (seq_body function s v o h j).
Proof.
  intros Hj. unfold seq_body, seq_tracked.
  destruct (function v); cbn [q_journal q_at seq_busy];
    rewrite track_app, Hj; simpl; by rewrite ?decide_True.
Qed.

Lemma seq_take_tracked s r j :
  track None j = Some None → seq_tracked (seq_take function s r j).
Proof.
  intros Hj. unfold seq_take. destruct (r_handoff r); [by apply seq_body_tracked|done..].
Qed.

Lemma seq_step_tracked a m m' :
  seq_tracked m → seq_step name function a m = Some m' → seq_tracked m'.
Proof.
  unfold seq_tracked at 1. intros Hm. unfold seq_step.
  destruct a, (q_at m) eqn:Eat; try done; cbn [seq_busy] in Hm;
    try (destruct (serve r (q_entity m) (q_heap m)) as [o1 h1];
         intros [= <-]; unfold seq_tracked; cbn; by rewrite Hm, ?Eat);
    try (intros [= <-]; by apply seq_take_tracked);
    try (intros [= <-]; unfold seq_tracked; cbn;
         rewrite ?track_app, Hm; simpl; by rewrite ?decide_True).
  destruct (event (q_heap m !!! s)); [|done]. intros [= <-]. by apply seq_take_tracked.
Qed.

Lemma seq_step_set m s v1 v :
  q_at m = SeqAwait s v1 →
  seq_step name function (Env (DoSet name v)) m =
    Some (SeqMachine (after (setattr send (q_entity m) name v (q_heap m)))
                     (world (setattr send (q_entity m) name v (q_heap m)))
                     (SeqAwait s v1) (q_journal m)).
Proof. intros Hat. unfold seq_step. by rewrite Hat. Qed.

(** Assignments that arrive while the handler runs start no invocation;
    the last of them is what the slot holds. *)
Lemma seq_arrivals_buffered vs v2 m s v1 :
  q_at m = SeqAwait s v1 →
  s ∈ observers (q_entity m) name →
  ∃ m1, seq_run name function (arrivals name (vs ++ [v2])) m = Some m1
        ∧ q_at m1 = SeqAwait s v1
        ∧ q_journal m1 = q_journal m
        ∧ q_heap m1 !!! s = Bridge v2 true.
Proof.
  revert m. induction vs as [|v vs IH]; intros m Hat Hs; cbn [app arrivals map seq_run].
  - rewrite (seq_step_set m s v1 v2 Hat). eexists. split; [done|].
    cbn. repeat split; try done. by apply setattr_send_in.
  - rewrite (seq_step_set m s v1 v Hat).
    edestruct (IH (SeqMachine (after (setattr send (q_entity m) name v (q_heap m)))
                     (world (setattr send (q_entity m) name v (q_heap m)))
                     (SeqAwait s v1) (q_journal m))) as (m1 & Hrun & ? & ? & ?);
      [done| |].
    { cbn. by rewrite setattr_observers. }
    exists m1. by rewrite <-Hrun.
Qed.

End SeqFacts.

(** C4: the handler invocations of a [seq] driver never overlap: in the
    journal of every run each invocation is closed before the next one
    begins.  Assignments that arrive while the handler for [v1] is being
    awaited begin nothing; once that handler returns, the next invocation
    begins after the end of the first and receives the value assigned
    last, none of the values in between. *)
Theorem seq_invocations_sequential (name : string) (function : pyobj → reply) :
  (∀ l o h m, seq_run name function l (seq o h) = Some m →
     sequential (q_journal m)
     ∧ track None (q_journal m) = Some (seq_busy (q_at m)))
  ∧ (∀ m s v1 vs v2,
       q_at m = SeqAwait s v1 →
       s ∈ observers (q_entity m) name →
       ∃ m1 m2,
         seq_run name function (arrivals name (vs ++ [v2])) m = Some m1
         ∧ q_at m1 = SeqAwait s v1
         ∧ q_journal m1 = q_journal m
         ∧ seq_run name function [Return; Resume] m1 = Some m2
         ∧ q_journal m2 = q_journal m ++ [End v1; Begin v2] ++ closing function v2).
Proof.
  split.
  - intros l o h m Hrun.
    assert (Hm : seq_tracked m).
    { by apply (seq_run_invariant name function seq_tracked
                  (seq_step_tracked name function) l (seq o h) m). }
    split; [by eexists|done].
  - intros m s v1 vs v2 Hat Hs.
    destruct (seq_arrivals_buffered name function vs v2 m s v1 Hat Hs)
      as (m1 & Hrun1 & Hat1 & Hj1 & Hslot).
    exists m1.
    assert (Hret : seq_step name function Return m1 =
              Some (SeqMachine (q_entity m1) (q_heap m1) (SeqNext s)
                      (q_journal m1 ++ [End v1]))).
    { unfold seq_step. by rewrite Hat1. }
    cbn [seq_run]. rewrite Hret. unfold seq_step. cbn [q_at q_heap q_entity q_journal].
    unfold observe_wait. rewrite Hslot. cbn [event state_send value].
    unfold seq_take. cbn [r_handoff r_entity r_heap].
    unfold seq_body, closing. rewrite Hj1.
    destruct (function v2); eexists; (repeat split; try done); cbn [q_journal];
      by rewrite <-!app_assoc.
Qed.

(** ** [switch] *)

Lemma cancel_active t ts t' k :
  cancel t ts !! t' = Some k → status_of k = Active → ts !! t' = Some k ∧ t' ≠ t.
Proof.
  unfold cancel. destruct (ts !! t) as [[v [| |]]|] eqn:E; intros Hk Ha;
    try (split; [done|]; intros ->; rewrite E in Hk; by simplify_eq).
  destruct (decide (t' = t)) as [->|Hne].
  - rewrite list_lookup_insert_eq in Hk by by eapply lookup_lt_Some.
    by simplify_eq.
  - by rewrite list_lookup_insert_ne in Hk.
Qed.

Lemma cancel_length t ts : length (cancel t ts) = length ts.
Proof.
  unfold cancel. destruct (ts !! t) as [[v [| |]]|]; try done. apply length_insert.
Qed.

Lemma close_active stack ts t k :
  (close stack ts).1 !! t = Some k → status_of k = Active →
  ts !! t = Some k ∧ t ∉ stack.
Proof.
  revert ts. induction stack as [|t0 stack IH]; intros ts; cbn [close].
  - intros ? _. split; [done|apply not_elem_of_nil].
  - specialize (IH (cancel t0 ts)).
    destruct (close stack (cancel t0 ts)) as [ts1 ds]. cbn [fst] in *.
    intros Hk Ha. destruct (IH Hk Ha) as [Hc Hn].
    destruct (cancel_active _ _ _ _ Hc Ha) as [? ?].
    split; [done|]. apply not_elem_of_cons. done.
Qed.

Lemma close_length stack ts : length (close stack ts).1 = length ts.
Proof.
  revert ts. induction stack as [|t0 stack IH]; intros ts; cbn [close]; [done|].
  specialize (IH (cancel t0 ts)). destruct (close stack (cancel t0 ts)) as [ts1 ds].
  cbn [fst] in *. by rewrite IH, cancel_length.
Qed.

Lemma close_deeds stack ts : (close stack ts).2 = map CancelCall stack.
Proof.
  revert ts. induction stack as [|t0 stack IH]; intros ts; cbn [close]; [done|].
  specialize (IH (cancel t0 ts)). destruct (close stack (cancel t0 ts)) as [ts1 ds].
  cbn [snd] in *. by rewrite IH.
Qed.

(** Closing a stack that guards every active task leaves none active. *)
Lemma close_quiesces stack ts t k :
  (∀ t k, ts !! t = Some k → status_of k = Active → stack = [t]) →
  (close stack ts).1 !! t = Some k → status_of k ≠ Active.
Proof.
  intros Hg Hk Ha. destruct (close_active _ _ _ _ Hk Ha) as [Hts Hn].
  rewrite (Hg _ _ Hts Ha) in Hn. apply Hn. left.
Qed.

Lemma alive_none ts :
  (∀ t k, ts !! t = Some k → status_of k ≠ Active) → alive ts = [].
Proof.
  induction ts as [|k ts IH]; intros H; [done|]. unfold alive. rewrite filter_cons.
  destruct (decide (status_of k = Active)) as [Ha|_]; [by destruct (H 0 k eq_refl)|].
  apply IH. intros t k'. apply (H (S t)).
Qed.

Lemma alive_unique ts :
  (∀ t1 t2 k1 k2, ts !! t1 = Some k1 → ts !! t2 = Some k2 →
     status_of k1 = Active → status_of k2 = Active → t1 = t2) →
  length (alive ts) ≤ 1.
Proof.
  induction ts as [|k ts IH]; intros H; [simpl; lia|]. unfold alive. rewrite filter_cons.
  destruct (decide (status_of k = Active)) as [Ha|_].
  - fold (alive ts). rewrite alive_none; [simpl; lia|].
    intros t k' Hk' Ha'. by specialize (H 0 (S t) k k' eq_refl Hk' Ha Ha').
  - apply IH. intros t1 t2 k1 k2 H1 H2 A1 A2.
    by specialize (H (S t1) (S t2) k1 k2 H1 H2 A1 A2) as [= ->].
Qed.

Lemma guarded_at_most_one m : switch_guarded m → length (alive (w_tasks m)) ≤ 1.
Proof.
  intros Hg. apply alive_unique. intros t1 t2 k1 k2 H1 H2 A1 A2.
  pose proof (Hg _ _ H1 A1) as E1. pose proof (Hg _ _ H2 A2) as E2. congruence.
Qed.

Section SwitchFacts.
Variable name : string.
Variable function : pyobj → reply.

Lemma switch_body_invariant s v m :
  switch_guarded m → switch_invariant (switch_body function s v m).
Proof.
  intros Hg. unfold switch_body. destruct (function v).
  - by split.
  - pose proof (close_quiesces (w_stack m) (w_tasks m)) as Hq.
    pose proof (close_length (w_stack m) (w_tasks m)) as Hl.
    destruct (close (w_stack m) (w_tasks m)) as [ts ds]. cbn [fst] in *.
    split; [|done]. intros t k Hk Ha. cbn in *.
    destruct (decide (t < length ts)) as [Hlt|Hge].
    + rewrite lookup_app_l in Hk by done. by destruct (Hq t k Hg Hk).
    + apply lookup_lt_Some in Hk as Hlt. rewrite length_app in Hlt. simpl in Hlt.
      f_equal. lia.
  - pose proof (close_quiesces (w_stack m) (w_tasks m)) as Hq.
    destruct (close (w_stack m) (w_tasks m)) as [ts ds]. cbn [fst] in *.
    split; [|done]. intros t k Hk Ha. cbn in *. by destruct (Hq t k Hg Hk).
  - pose proof (close_quiesces (w_stack m) (w_tasks m)) as Hq.
    destruct (close (w_stack m) (w_tasks m)) as [ts ds]. cbn [fst] in *.
    split; [|done]. intros t k Hk Ha. cbn in *. by destruct (Hq t k Hg Hk).
Qed.

Lemma switch_take_invariant s r m :
  switch_guarded m → switch_invariant (switch_take function s r m).
Proof.
  intros Hg. unfold switch_take. destruct (r_handoff r).
  - by apply switch_body_invariant.
  - by split.
  - pose proof (close_quiesces (w_stack m) (w_tasks m)) as Hq.
    destruct (close (w_stack m) (w_tasks m)) as [ts ds]. cbn [fst] in *.
    split; [|done]. intros t k Hk Ha. cbn in *. by destruct (Hq t k Hg Hk).
Qed.

Lemma finish_task_guarded t ts ts' stack :
  (∀ t k, ts !! t = Some k → status_of k = Active → stack = [t]) →
  finish_task t ts = Some ts' →
  ∀ t k, ts' !! t = Some k → status_of k = Active → stack = [t].
Proof.
  intros Hg Hf t' k Hk Ha. unfold finish_task in Hf.
  assert (∃ v, ts' = <[t := Task v Done]> ts) as [v ->].
  { destruct (ts !! t) as [[v [| |]]|]; simplify_eq; eauto. }
  destruct (decide (t' = t)) as [->|Hne].
  - apply lookup_lt_Some in Hk as Hlt. rewrite length_insert in Hlt.
    rewrite list_lookup_insert_eq in Hk by done. by simplify_eq.
  - rewrite list_lookup_insert_ne in Hk by done. eauto.
Qed.

Lemma switch_step_invariant a m m' :
  switch_invariant m → switch_step name function a m = Some m' →
  switch_invariant m'.
Proof.
  intros [Hg Hs]. unfold switch_step.
  destruct a, (w_at m) eqn:Eat; try done;
    try (destruct (serve r (w_entity m) (w_heap m)) as [o1 h1];
         intros [= <-]; split; cbn; by rewrite ?Eat);
    try (destruct (finish_task t (w_tasks m)) as [ts|] eqn:Ef; [|done];
         cbn [mbind option_bind]; intros [= <-]; split; [|done];
         intros t' k' Hk' Ha'; cbn in *;
         by apply (finish_task_guarded t (w_tasks m) ts (w_stack m) Hg Ef t' k'));
    try (intros [= <-]; by apply switch_take_invariant).
  - destruct (event (w_heap m !!! s)); [|done]. intros [= <-].
    by apply switch_take_invariant.
  - intros [= <-]. by split.
  - pose proof (close_quiesces (w_stack m) (w_tasks m)) as Hq.
    destruct (close (w_stack m) (w_tasks m)) as [ts ds]. cbn [fst] in *.
    intros [= <-]. split; [|done]. intros t k Hk Ha. cbn in *.
    by destruct (Hq t k Hg Hk).
  - intros [= <-]. by split.
Qed.

Lemma switch_reachable_invariant l o h m :
  switch_run name function l (switch o h) = Some m → switch_invariant m.
Proof.
  apply (switch_run_invariant name function switch_invariant switch_step_invariant).
  split; [|done]. by intros t k ?.
Qed.

(** The step that delivers a value to the body of the loop. *)
Lemma switch_wake m s v :
  w_at m = SwWait s →
  w_heap m !!! s = Bridge v true →
  switch_step name function Wake m =
    Some (switch_body function s v
            (SwitchMachine (w_entity m) (<[s := Bridge v false]> (w_heap m))
               (SwWait s) (w_tasks m) (w_stack m) (w_deeds m))).
Proof.
  intros Hat Hs. unfold switch_step. rewrite Hat, Hs. cbn [event].
  unfold observe_wake, switch_take. by rewrite Hs.
Qed.

End SwitchFacts.

(** C3 (as amended): in every state a run of a [switch] driver can reach,
    at most one of its handler tasks is active (created, not done, no
    cancellation requested), and none is once the driver has ended.  When
    a value arrives for which the handler returns a coroutine, the
    driver, after calling the handler, requests the cancellation of the
    task it guards - the only one that can be active - and only then
    creates the task for the new coroutine, which becomes the single
    active one.  For an awaitable that is no coroutine the cancellation
    is requested all the same, but no task is created: [create_task]
    raises [TypeError], which ends the driver.  A driver cancelled while
    it waits requests, on its way out, the cancellation of the task it
    guards. *)
Theorem switch_cancels_then_restarts (name : string) (function : pyobj → reply) :
  (∀ l o h m, switch_run name function l (switch o h) = Some m →
     length (alive (w_tasks m)) ≤ 1
     ∧ (∀ p e, w_at m = SwEnd p e → alive (w_tasks m) = [])
     ∧ (∀ s e, w_at m = SwLeft s e → alive (w_tasks m) = []))
  ∧ (∀ l o h m s v,
       switch_run name function l (switch o h) = Some m →
       w_at m = SwWait s →
       w_heap m !!! s = Bridge v true →
       function v = Awaitable →
       ∃ m', switch_step name function Wake m = Some m'
         ∧ (∀ t k, w_tasks m !! t = Some k → status_of k = Active → w_stack m = [t])
         ∧ w_deeds m' = w_deeds m ++ [Called v] ++ map CancelCall (w_stack m)
                          ++ [Created (length (w_tasks m)) v]
         ∧ (∀ t k, t < length (w_tasks m) → w_tasks m' !! t = Some k →
                   status_of k ≠ Active)
         ∧ w_tasks m' !! length (w_tasks m) = Some (Task v Active)
         ∧ alive (w_tasks m') = [Task v Active])
  ∧ (∀ l o h m s v,
       switch_run name function l (switch o h) = Some m →
       w_at m = SwWait s →
       w_heap m !!! s = Bridge v true →
       function v = NonCoroutine →
       ∃ m', switch_step name function Wake m = Some m'
         ∧ w_at m' = SwLeft s TypeError
         ∧ w_deeds m' = w_deeds m ++ [Called v] ++ map CancelCall (w_stack m)
         ∧ length (w_tasks m') = length (w_tasks m)
         ∧ alive (w_tasks m') = [])
  ∧ (∀ l o h m s,
       switch_run name function l (switch o h) = Some m →
       w_at m = SwWait s →
       ∃ m', switch_step name function Cancel m = Some m'
         ∧ w_at m' = SwEnd (Some s) CancelledError
         ∧ w_deeds m' = w_deeds m ++ map CancelCall (w_stack m)
         ∧ alive (w_tasks m') = []).
Proof.
  split; [|split; [|split]].
  - intros l o h m Hrun.
    destruct (switch_reachable_invariant name function l o h m Hrun) as [Hg Hs].
    split; [by apply guarded_at_most_one|].
    split.
    + intros p e Hat. rewrite Hat in Hs. apply alive_none. intros t k Hk Ha.
      specialize (Hg t k Hk Ha). congruence.
    + intros s e Hat. rewrite Hat in Hs. apply alive_none. intros t k Hk Ha.
      specialize (Hg t k Hk Ha). congruence.
  - intros l o h m s v Hrun Hat Hslot Hf.
    destruct (switch_reachable_invariant name function l o h m Hrun) as [Hg _].
    rewrite (switch_wake name function m s v Hat Hslot).
    eexists. split; [done|]. split; [exact Hg|].
    unfold switch_body. rewrite Hf. cbn [w_stack w_tasks w_deeds].
    pose proof (close_quiesces (w_stack m) (w_tasks m)) as Hq.
    pose proof (close_length (w_stack m) (w_tasks m)) as Hl.
    pose proof (close_deeds (w_stack m) (w_tasks m)) as Hd.
    destruct (close (w_stack m) (w_tasks m)) as [ts ds]. cbn [fst snd] in *.
    subst ds. rewrite <-Hl.
    assert (Hnone : ∀ t k, ts !! t = Some k → status_of k ≠ Active)
      by (intros t k; by apply Hq).
    cbn [w_tasks w_deeds]. repeat split.
    + intros t k Hlt Hk. rewrite lookup_app_l in Hk by done. by apply (Hnone t).
    + by rewrite lookup_app_r, Nat.sub_diag.
    + unfold alive. rewrite filter_app. fold (alive ts). rewrite (alive_none ts Hnone).
      by rewrite filter_cons, decide_True.
  - intros l o h m s v Hrun Hat Hslot Hf.
    destruct (switch_reachable_invariant name function l o h m Hrun) as [Hg _].
    rewrite (switch_wake name function m s v Hat Hslot).
    eexists. split; [done|].
    unfold switch_body. rewrite Hf. cbn [w_stack w_tasks w_deeds].
    pose proof (close_quiesces (w_stack m) (w_tasks m)) as Hq.
    pose proof (close_length (w_stack m) (w_tasks m)) as Hl.
    pose proof (close_deeds (w_stack m) (w_tasks m)) as Hd.
    destruct (close (w_stack m) (w_tasks m)) as [ts ds]. cbn [fst snd] in *.
    subst ds. cbn [w_at w_tasks w_deeds]. repeat split; try done.
    apply alive_none. intros t k. by apply Hq.
  - intros l o h m s Hrun Hat.
    destruct (switch_reachable_invariant name function l o h m Hrun) as [Hg _].
    unfold switch_step. rewrite Hat.
    pose proof (close_quiesces (w_stack m) (w_tasks m)) as Hq.
    pose proof (close_deeds (w_stack m) (w_tasks m)) as Hd.
    destruct (close (w_stack m) (w_tasks m)) as [ts ds]. cbn [fst snd] in *.
    subst ds. eexists. split; [done|]. cbn [w_at w_tasks w_deeds].
    repeat split; try done. apply alive_none. intros t k. by apply Hq.
Qed.

(** C10: when the handler returns a result that is not awaitable, the
    [switch] driver only notes the call: its tasks and its exit stack
    stay as they were, so a task that was active is still active.  A
    turn of the loop that goes on and changes the tasks or the stack is
    one whose handler result was awaitable. *)
Theorem switch_plain_result_keeps_tasks (name : string) (function : pyobj → reply)
    (m : switch_machine) (s : nat) (v : pyobj) :
  w_at m = SwWait s →
  w_heap m !!! s = Bridge v true →
  (function v = Plain →
     ∃ m', switch_step name function Wake m = Some m'
       ∧ w_at m' = SwNext s
       ∧ w_tasks m' = w_tasks m
       ∧ w_stack m' = w_stack m
       ∧ alive (w_tasks m') = alive (w_tasks m)
       ∧ w_deeds m' = w_deeds m ++ [Called v])
  ∧ (∀ m', switch_step name function Wake m = Some m' →
       w_at m' = SwNext s →
       w_tasks m' ≠ w_tasks m ∨ w_stack m' ≠ w_stack m →
       function v = Awaitable).
Proof.
  intros Hat Hslot. rewrite (switch_wake name function m s v Hat Hslot).
  unfold switch_body. cbn [w_stack w_tasks w_deeds w_entity w_heap].
  split.
  - intros ->. by eexists.
  - intros m' [= <-]. destruct (function v); [|done|..].
    + cbn. by intros _ [?|?].
    + by destruct (close (w_stack m) (w_tasks m)).
    + by destruct (close (w_stack m) (w_tasks m)).
Qed.

(** ** Concrete runs *)

(** Cancel-and-restart: "mode" becomes 1 and then 2 while the handler for
    1 is still running; the task for 1 gets its cancellation request
    before the task for 2 is created. *)
Example switch_restart :
  w_tasks <$> switch_run "mode" always_async one_then_two (switch blank ∅)
    = Some [Task (PInt 1) Cancelling; Task (PInt 2) Active]
  ∧ w_deeds <$> switch_run "mode" always_async one_then_two (switch blank ∅)
    = Some [Called (PInt 1); Created 0 (PInt 1);
            Called (PInt 2); CancelCall 0; Created 1 (PInt 2)].
Proof. split; by vm_compute. Qed.

(** A stream does not see what was assigned before it was first advanced,
    and delivers a deletion as [DELETED]. *)
Example seq_sees_deletion :
  q_journal <$> seq_run "x" sometimes_async
      [Env (DoSet "x" (PInt 7)); Resume; Env (DoDel "x"); Wake; Resume]
      (seq blank ∅)
    = Some [Begin DELETED; End DELETED].
Proof. by vm_compute. Qed.


(** Counterexample to C2 as stated: a [seq] driver whose handler raises,
    and one that is cancelled while it awaits its handler, have ended,
    and so has a [switch] driver whose handler raises; in each case the
    callback of the stream is still subscribed, and an assignment of 2
    calls it. *)
Lemma abandoned_stream_stays_subscribed :
  (q_at <$> seq_run "x" always_failing takes_one (seq blank ∅)
     = Some (SeqLeft 0 (Failure 0))
   ∧ seq_called <$> seq_run "x" always_failing takes_one (seq blank ∅) = Some [0])
  ∧ (q_at <$> seq_run "x" always_async (takes_one ++ [Cancel]) (seq blank ∅)
       = Some (SeqLeft 0 CancelledError)
     ∧ seq_called <$> seq_run "x" always_async (takes_one ++ [Cancel]) (seq blank ∅)
       = Some [0])
  ∧ (w_at <$> switch_run "x" always_failing takes_one (switch blank ∅)
       = Some (SwLeft 0 (Failure 0))
     ∧ switch_called <$> switch_run "x" always_failing takes_one (switch blank ∅)
       = Some [0]).
Proof. repeat split; by vm_compute. Qed.

(** Counterexample to C3 as stated.  The handler answers 1 with a
    coroutine and 2 with a plain result: when 2 arrives while the task
    for 1 is running, the handler is called for 2 and the task for 1 is
    neither cancelled nor replaced.  The handler answers both with a
    coroutine: when the task for 2 is created, the task for 1 has been
    asked to cancel and is not done, so two tasks are not done at the
    same time.  The handler answers 2 with a future: the task for 1 is
    asked to cancel and no task for 2 is ever created, the driver ending
    with [TypeError]. *)
Lemma switch_plain_result_spares_task :
  (w_tasks <$> switch_run "mode" sometimes_async one_then_two (switch blank ∅)
     = Some [Task (PInt 1) Active]
   ∧ w_deeds <$> switch_run "mode" sometimes_async one_then_two (switch blank ∅)
     = Some [Called (PInt 1); Created 0 (PInt 1); Called (PInt 2)])
  ∧ (unfinished <$> (w_tasks <$>
         switch_run "mode" always_async one_then_two (switch blank ∅))
     = Some [Task (PInt 1) Cancelling; Task (PInt 2) Active])
  ∧ (w_at <$> switch_run "mode" coroutine_then_future one_then_two (switch blank ∅)
       = Some (SwLeft 0 TypeError)
     ∧ w_tasks <$> switch_run "mode" coroutine_then_future one_then_two (switch blank ∅)
       = Some [Task (PInt 1) Cancelling]
     ∧ w_deeds <$> switch_run "mode" coroutine_then_future one_then_two (switch blank ∅)
       = Some [Called (PInt 1); Created 0 (PInt 1); Called (PInt 2); CancelCall 0]).
Proof. repeat split; by vm_compute. Qed.

(** Counterexample to C5 as stated: on an entity without subscribers,
    [notify] for a name that was never set returns 0 and raises
    nothing. *)
Lemma notify_unset_unobserved_returns :
  result (notify send blank ["never_set"] ∅) = inr 0
  ∧ calls (notify send blank ["never_set"] ∅) = [].
Proof. split; by vm_compute. Qed.

(** Counterexample to C6 as stated: with subscribers [Spy 2; Faulty 0;
    Spy 1], a set, a delete and a notify each end with the exception of
    [Faulty 0], and [Spy 1] is never called; with two raising
    subscribers the second in iteration order is not called, whichever
    it is. *)
Lemma failing_subscriber_cuts_fanout :
  (result (setattr probe_call fragile "x" (PInt 6) []) = inl (Failure 0)
   ∧ world (setattr probe_call fragile "x" (PInt 6) []) = [(2, PInt 6)])
  ∧ (result (delattr probe_call fragile "x" []) = inl (Failure 0)
     ∧ world (delattr probe_call fragile "x" []) = [(2, DELETED)])
  ∧ (result (notify probe_call fragile ["x"] []) = inl (Failure 0)
     ∧ world (notify probe_call fragile ["x"] []) = [(2, PInt 5)])
  ∧ map callee (calls (setattr probe_call (brittle 0 1) "x" (PInt 6) [])) = [Faulty 0]
  ∧ map callee (calls (setattr probe_call (brittle 1 0) "x" (PInt 6) [])) = [Faulty 1].
Proof. repeat split; by vm_compute. Qed.

(** Counterexample to C7 as stated: on [fragile] the delete of "x"
    calls the first two of the three subscribers and ends with the
    exception of the second: one subscriber is not invoked.  And the
    marker is not distinct from every value that can be set: it can be
    set itself, and an object whose [__eq__] accepts everything is equal
    to it without being it. *)
Lemma deletion_skips_subscriber :
  (observers fragile "x" = [Spy 2; Faulty 0; Spy 1]
   ∧ attrs fragile !! "x" = Some (PInt 5)
   ∧ map callee (calls (delattr probe_call fragile "x" [])) = [Spy 2; Faulty 0]
   ∧ result (delattr probe_call fragile "x" []) = inl (Failure 0))
  ∧ map arg (calls (setattr probe_call tidy "x" DELETED [])) = [DELETED; DELETED]
  ∧ py_eq PAny DELETED = true
  ∧ PAny ≠ DELETED.
Proof. repeat split; by vm_compute. Qed.


(** ** The theorems at concrete inputs *)


(** A [seq] driver on [blank] whose handler raises for 1: the driver has
    ended and its callback is subscribed until the stream is
    finalized. *)
Lemma stream_exit_unsubscribes_witness :
  ∃ m, seq_run "x" always_failing takes_one (seq blank ∅) = Some m
       ∧ q_at m = SeqLeft 0 (Failure 0)
       ∧ 0 ∈ observers (q_entity m) "x"
       ∧ ∃ m', seq_step "x" always_failing Finalize m = Some m'
               ∧ 0 ∉ observers (q_entity m') "x".
Proof.
  eexists. split; [vm_compute; reflexivity|].
  match goal with |- q_at ?m = _ ∧ _ => set (m0 := m) end.
  assert (Hrun : seq_run "x" always_failing takes_one (seq blank ∅) = Some m0)
    by (vm_compute; reflexivity).
  assert (Hat : q_at m0 = SeqLeft 0 (Failure 0)) by reflexivity.
  split; [exact Hat|].
  destruct (stream_exit_unsubscribes "x" always_failing) as (_ & Hseq & _).
  destruct (Hseq takes_one blank ∅ m0 Hrun) as (_ & _ & Hleft).
  destruct (Hleft 0 (Failure 0) Hat) as (Hin & _ & m' & Hstep & _ & _ & Hout).
  split; [exact Hin|]. exists m'. split; [exact Hstep|exact Hout].
Defined.

(** "mode" becomes 1, then 2 while the task for 1 runs: after the driver
    is woken the task for 2 is the only active one. *)
Lemma switch_cancels_then_restarts_witness :
  ∃ m, switch_run "mode" always_async
         [Resume; Env (DoSet "mode" (PInt 1)); Wake; Resume; Env (DoSet "mode" (PInt 2))]
         (switch blank ∅) = Some m
       ∧ w_at m = SwWait 0
       ∧ w_heap m !!! 0 = Bridge (PInt 2) true
       ∧ always_async (PInt 2) = Awaitable
       ∧ ∃ m', switch_step "mode" always_async Wake m = Some m'
               ∧ alive (w_tasks m') = [Task (PInt 2) Active].
Proof.
  eexists. split; [vm_compute; reflexivity|].
  match goal with |- w_at ?m = _ ∧ _ => set (m0 := m) end.
  assert (Hrun : switch_run "mode" always_async
            [Resume; Env (DoSet "mode" (PInt 1)); Wake; Resume;
             Env (DoSet "mode" (PInt 2))] (switch blank ∅) = Some m0)
    by (vm_compute; reflexivity).
  assert (H1 : w_at m0 = SwWait 0) by reflexivity.
  assert (H2 : w_heap m0 !!! 0 = Bridge (PInt 2) true) by (vm_compute; reflexivity).
  assert (H3 : always_async (PInt 2) = Awaitable) by reflexivity.
  split; [exact H1|]. split; [exact H2|]. split; [exact H3|].
  destruct (switch_cancels_then_restarts "mode" always_async) as (_ & Hstep & _).
  destruct (Hstep _ blank ∅ m0 0 (PInt 2) Hrun H1 H2 H3)
    as (m' & Hm' & _ & _ & _ & _ & Halive).
  exists m'. split; [exact Hm'|exact Halive].
Defined.

(** While the handler for 1 is awaited, 2 and 3 are assigned; the next
    invocation is for 3. *)
Lemma seq_invocations_sequential_witness :
  q_at seq_midway = SeqAwait 0 (PInt 1)
  ∧ 0 ∈ observers (q_entity seq_midway) "x"
  ∧ ∃ m1 m2,
      seq_run "x" sometimes_async (arrivals "x" ([PInt 2] ++ [PInt 3])) seq_midway = Some m1
      ∧ seq_run "x" sometimes_async [Return; Resume] m1 = Some m2
      ∧ q_journal m2 = [Begin (PInt 1); End (PInt 1); Begin (PInt 3); End (PInt 3)].
Proof.
  assert (H1 : q_at seq_midway = SeqAwait 0 (PInt 1)) by reflexivity.
  assert (H2 : 0 ∈ observers (q_entity seq_midway) "x") by (vm_compute; left).
  split; [exact H1|]. split; [exact H2|].
  destruct (seq_invocations_sequential "x" sometimes_async) as [_ Hlatest].
  destruct (Hlatest seq_midway 0 (PInt 1) [PInt 2] (PInt 3) H1 H2)
    as (m1 & m2 & Hr1 & _ & _ & Hr2 & Hj).
  exists m1, m2. split; [exact Hr1|]. split; [exact Hr2|exact Hj].
Defined.

(** [notify] for "x" on [watched], where "x" has a subscriber and no
    value. *)
Lemma notify_missing_attribute_witness :
  attrs watched !! "x" = None
  ∧ result (notify send watched ["x"] ∅) = inl (AttributeError "x")
  ∧ calls (notify send watched ["x"] ∅) = [].
Proof.
  assert (H1 : attrs watched !! "x" = None) by reflexivity.
  split; [exact H1|].
  destruct (notify_missing_attribute send watched "x" ∅ H1) as (Hc & _ & _ & Hr).
  split; [exact Hr|exact Hc].
Defined.

(** A set on [fragile]: the spy before the raising subscriber is called,
    the one after it is not. *)
Lemma fanout_interrupted_by_failure_witness :
  observers fragile "x" = [Spy 2] ++ Faulty 0 :: [Spy 1]
  ∧ map callee (calls (setattr probe_call fragile "x" (PInt 6) [])) = [Spy 2] ++ [Faulty 0]
  ∧ result (setattr probe_call fragile "x" (PInt 6) []) = inl (Failure 0).
Proof.
  assert (H1 : observers fragile "x" = [Spy 2] ++ Faulty 0 :: [Spy 1]) by reflexivity.
  assert (H2 : passes probe_call [Spy 2] (PInt 6) (<["x" := PInt 6]> (attrs fragile)) []
               = Some [(2, PInt 6)]) by reflexivity.
  assert (H3 : (probe_call (Faulty 0) (PInt 6) (<["x" := PInt 6]> (attrs fragile))
                  [(2, PInt 6)]).2 = Some (Failure 0)) by reflexivity.
  split; [exact H1|].
  destruct (fanout_interrupted_by_failure probe_call fragile "x" [Spy 2] (Faulty 0)
              [Spy 1] (Failure 0) [] H1) as (Hset & _ & _).
  destruct (Hset (PInt 6) [(2, PInt 6)] H2 H3) as (Hr & Hc & _).
  split; [exact Hc|exact Hr].
Defined.

(** Deleting "x" on [tidy] calls both spies with [DELETED]. *)
Lemma delattr_dispatches_DELETED_witness :
  attrs tidy !! "x" = Some (PInt 5)
  ∧ map callee (calls (delattr probe_call tidy "x" [])) = [Spy 1; Spy 2]
  ∧ map arg (calls (delattr probe_call tidy "x" [])) = [DELETED; DELETED]
  ∧ attrs (after (delattr probe_call tidy "x" [])) !! "x" = None.
Proof.
  assert (H1 : attrs tidy !! "x" = Some (PInt 5)) by reflexivity.
  assert (H2 : passes probe_call (observers tidy "x") DELETED (delete "x" (attrs tidy)) []
               = Some [(1, DELETED); (2, DELETED)]) by reflexivity.
  split; [exact H1|].
  destruct (delattr_dispatches_DELETED probe_call tidy "x" (PInt 5) [] H1)
    as (Ha & _ & _ & _ & Hall & _).
  destruct (Hall _ H2) as [_ Hc].
  rewrite Hc, Ha. repeat split; reflexivity.
Defined.



(** [switch_midway] woken for 2, which the handler answers with a plain
    result: the task for 1 stays. *)
Lemma switch_plain_result_keeps_tasks_witness :
  w_at switch_midway = SwWait 0
  ∧ w_heap switch_midway !!! 0 = Bridge (PInt 2) true
  ∧ sometimes_async (PInt 2) = Plain
  ∧ ∃ m', switch_step "x" sometimes_async Wake switch_midway = Some m'
          ∧ w_tasks m' = [Task (PInt 1) Active].
Proof.
  assert (H1 : w_at switch_midway = SwWait 0) by reflexivity.
  assert (H2 : w_heap switch_midway !!! 0 = Bridge (PInt 2) true)
    by (vm_compute; reflexivity).
  assert (H3 : sometimes_async (PInt 2) = Plain) by reflexivity.
  split; [exact H1|]. split; [exact H2|]. split; [exact H3|].
  destruct (switch_plain_result_keeps_tasks "x" sometimes_async switch_midway 0
              (PInt 2) H1 H2) as [Hplain _].
  destruct (Hplain H3) as (m' & Hstep & _ & Ht & _).
  exists m'. split; [exact Hstep|exact Ht].
Defined.

(** * Further properties *)

(** ** The [state] generator *)

(** X1: whatever updates and reads the generator has received, it holds
    the value of the last update (its initial value when there was
    none), a read returns that value, and its event is set exactly when
    the last message was an update. *)
Theorem state_keeps_last_update (ms : list msg) (s : bridge) :
  value (state_run ms s) = default (value s) (last_update ms)
  ∧ (state_send Read (state_run ms s)).2 = default (value s) (last_update ms)
  ∧ event (state_run ms s) =
      match last ms with
      | Some (Update _) => true
      | Some Read => false
      | None => event s
      end.
Proof.
  assert (H : value (state_run ms s) = default (value s) (last_update ms)
              ∧ event (state_run ms s) =
                  match last ms with
                  | Some (Update _) => true
                  | Some Read => false
                  | None => event s
                  end).
  { revert s. induction ms as [|m ms IH]; intros s; [done|].
    unfold state_run in *. cbn [foldl last_update].
    destruct (IH (state_send m s).1) as [IHv IHe]. rewrite IHv, IHe. split.
    - destruct (last_update ms); [done|]. by destruct m.
    - destruct ms as [|m' ms]; [by destruct m|]. rewrite last_cons_cons.
      destruct (last (m' :: ms)) as [[|?]|] eqn:El; try done.
      by apply last_None in El. }
  destruct H as [Hv He]. by rewrite <-Hv.
Qed.

(** ** The entity *)

Section EntityMore.
Context {C W : Type}.
Variable call : C → pyobj → gmap string pyobj → W → W * option exn.

Lemma notify_from_app (o : entity (C := C)) l1 l2 w n :
  notify_from call o (l1 ++ l2) w n =
    match notify_from call o l1 w n with
    | (w1, tr, inl e) => (w1, tr, inl e)
    | (w1, tr, inr n1) =>
        let '(w2, tr2, r) := notify_from call o l2 w1 n1 in (w2, tr ++ tr2, r)
    end.
Proof.
  revert w n. induction l1 as [|nm l1 IH]; intros w n.
  - cbn [app notify_from]. by destruct (notify_from call o l2 w n) as [[? ?] ?].
  - cbn [app notify_from]. destruct (registry o) as [reg|]; [|done].
    destruct (reg !! nm) as [[|f fs]|]; [apply IH| |apply IH].
    destruct (attrs o !! nm) as [u|]; [|done].
    destruct (notify_loop call (f :: fs) u (attrs o) w n) as [[w1 tr] [e|n1]]; [done|].
    rewrite IH. destruct (notify_from call o l1 w1 n1) as [[w2 tr2] [e|n2]]; [done|].
    destruct (notify_from call o l2 w2 n2) as [[w3 tr3] r]. by rewrite app_assoc.
Qed.



(** X3: with subscribers that leave the entity alone, as the callbacks
    of [observe] streams do, an attribute can be deleted once: a second
    delete, nothing having been assigned in between, raises
    [AttributeError], calls nobody and changes nothing. *)
Theorem delattr_twice_fails (o : entity) (name : string) (u : pyobj)
    (h : gmap nat bridge) :
  attrs o !! name = Some u →
  result (delattr send (after (delattr send o name h)) name
            (world (delattr send o name h))) = inl (AttributeError name)
  ∧ calls (delattr send (after (delattr send o name h)) name
             (world (delattr send o name h))) = []
  ∧ after (delattr send (after (delattr send o name h)) name
             (world (delattr send o name h))) = after (delattr send o name h)
  ∧ world (delattr send (after (delattr send o name h)) name
             (world (delattr send o name h))) = world (delattr send o name h).
Proof.
  intros Hu.
  assert (Hgone : attrs (after (delattr send o name h)) !! name = None).
  { unfold delattr. rewrite Hu, finish_after. apply lookup_delete_eq. }
  revert Hgone. generalize (delattr send o name h). intros x1 Hgone.
  unfold delattr. by rewrite Hgone.
Qed.

(** X4: [notify] passes over every name that has no subscriber, whether
    or not the name has a value: on an initialised entity it does what
    it does on the listed names that have one. *)
Theorem notify_skips_unobserved (o : entity (C := C)) names w :
  is_Some (registry o) →
  notify call o names w = notify call o (List.filter (observed o) names) w.
Proof.
  intros [reg Hreg]. unfold notify.
  enough (H : ∀ n, notify_from call o names w n
                   = notify_from call o (List.filter (observed o) names) w n)
    by by rewrite H.
  revert w. induction names as [|nm names IH]; intros w n; [done|].
  cbn [List.filter]. unfold observed at 1, observers. rewrite Hreg.
  destruct (reg !! nm) as [[|f fs]|] eqn:En; cbn [default]; unfold id;
    cbn [notify_from]; rewrite ?Hreg, ?En; try apply IH.
  destruct (attrs o !! nm) as [u|]; [|done].
  destruct (notify_loop call (f :: fs) u (attrs o) w n) as [[w1 tr] [e|n1]]; [done|].
  by rewrite IH.
Qed.

(** X5: [notify] is not all-or-nothing.  When the names before [bad]
    are notified without an exception and [bad] has a subscriber but no
    value, the call raises [AttributeError] for [bad] after the
    subscribers of the earlier names have been called; the names after
    [bad] are not looked at and the count is lost. *)
Theorem notify_stops_at_missing (o : entity (C := C)) pre bad post w k :
  result (notify call o pre w) = inr k →
  observed o bad = true →
  attrs o !! bad = None →
  result (notify call o (pre ++ bad :: post) w) = inl (AttributeError bad)
  ∧ calls (notify call o (pre ++ bad :: post) w) = calls (notify call o pre w)
  ∧ world (notify call o (pre ++ bad :: post) w) = world (notify call o pre w).
Proof.
  unfold notify. rewrite notify_from_app.
  destruct (notify_from call o pre w 0) as [[w1 tr] [e|n1]]; cbn [result]; [done|].
  intros _ Hobs Hbad. cbn [notify_from].
  unfold observed, observers in Hobs.
  destruct (registry o) as [reg|]; [|done].
  destruct (reg !! bad) as [[|f fs]|]; try done.
  rewrite Hbad. cbn. by rewrite app_nil_r.
Qed.

(** X6: [__init__] leaves the attributes and starts from an empty
    registry: after it, also when it runs a second time on an entity
    that had subscribers, no set or delete calls anybody and [notify]
    returns 0 for any names, set or not. *)
Theorem init_disconnects (o : entity (C := C)) name v names w :
  attrs (init o) = attrs o
  ∧ observers (init o) name = []
  ∧ calls (setattr call (init o) name v w) = []
  ∧ result (setattr call (init o) name v w) = inr tt
  ∧ calls (delattr call (init o) name w) = []
  ∧ calls (notify call (init o) names w) = []
  ∧ result (notify call (init o) names w) = inr 0.
Proof.
  assert (Hn : ∀ n, notify_from call (init o) names w n = (w, [], inr n)).
  { induction names as [|nm names IH]; intros n; [done|].
    cbn [notify_from init registry]. by rewrite lookup_empty. }
  repeat split; try done.
  - unfold delattr. by destruct (attrs (init o) !! name).
  - unfold notify. by rewrite Hn.
  - unfold notify. by rewrite Hn.
Qed.

End EntityMore.

(** ** Streams *)

Lemma set_add_fresh {A} `{EqDecision A} (x : A) l : x ∉ l → set_add x l = l ++ [x].
Proof. intros Hx. unfold set_add. by rewrite decide_False. Qed.

Lemma set_discard_absent {A} `{EqDecision A} (x : A) l : x ∉ l → set_discard x l = l.
Proof.
  induction l as [|y l IH]; [done|]. intros [Hne Hl]%not_elem_of_cons. simpl.
  rewrite decide_False by done. by rewrite IH.
Qed.

Lemma set_discard_app {A} `{EqDecision A} (x : A) l1 l2 :
  set_discard x (l1 ++ l2) = set_discard x l1 ++ set_discard x l2.
Proof.
  induction l1 as [|y l1 IH]; [done|]. simpl. case_decide; [done|]. by rewrite IH.
Qed.

Lemma set_discard_other {A} `{EqDecision A} (x y : A) l :
  y ≠ x → y ∈ set_discard x l ↔ y ∈ l.
Proof.
  intros Hne. induction l as [|z l IH]; [done|]. simpl. case_decide as Hz.
  - subst z. rewrite IH, elem_of_cons. split; [by right|]. by intros [?|?].
  - by rewrite !elem_of_cons, IH.
Qed.

Lemma observe_finally_observers name s (o : entity) n :
  observers (observe_finally name s o) n =
    if decide (name = n) then set_discard s (observers o n) else observers o n.
Proof.
  unfold observe_finally. destruct (registry o) as [reg|] eqn:Er.
  - destruct (reg !! name) as [[|f fs]|] eqn:En.
    + case_decide as Hn; [|done]. subst n. unfold observers. by rewrite Er, En.
    + rewrite observers_insert. unfold observers. rewrite Er.
      case_decide as Hn; [|done]. subst n. by rewrite En.
    + case_decide as Hn; [|done]. subst n. unfold observers. by rewrite Er, En.
  - unfold observers. rewrite Er. by case_decide.
Qed.

Lemma observe_finally_attrs name s (o : entity) :
  attrs (observe_finally name s o) = attrs o.
Proof.
  unfold observe_finally. destruct (registry o) as [reg|]; [|done].
  by destruct (reg !! name) as [[|f fs]|].
Qed.

Lemma observe_enter_fresh name (o : entity) (h : gmap nat bridge) reg :
  registry o = Some reg →
  fresh (dom h) ∉ observers o name →
  observe_enter name o h =
    Resumed (Entity (attrs o)
               (Some (<[name := observers o name ++ [fresh (dom h)]]> reg)))
      (<[fresh (dom h) := state_init]> h) (AtWait (fresh (dom h))) Suspended.
Proof.
  intros Hreg Hfresh.
  assert (Hobs : default [] (reg !! name) = observers o name)
    by (unfold observers; by rewrite Hreg).
  unfold observe_enter. rewrite Hreg, Hobs, set_add_fresh by done.
  unfold observe_wait. by rewrite lookup_total_insert_eq.
Qed.

(** X7: on an object whose [__init__] has not run, a set stores the
    value and calls nobody, while [notify] and the first advance of a
    stream raise [KeyError]; the stream is closed at once, leaves the
    object as it was, and a [seq] driver started there ends with that
    [KeyError]. *)
Theorem uninitialised_entity (o : entity) (name : string) (v : pyobj)
    (names : list string) (h : gmap nat bridge) (function : pyobj → reply) :
  registry o = None →
  names ≠ [] →
  (result (setattr send o name v h) = inr tt
   ∧ calls (setattr send o name v h) = []
   ∧ attrs (after (setattr send o name v h)) !! name = Some v)
  ∧ (result (notify send o names h) = inl KeyError
     ∧ calls (notify send o names h) = [])
  ∧ (r_handoff (observe_enter name o h) = Raised KeyError
     ∧ r_position (observe_enter name o h) = Closed
     ∧ r_entity (observe_enter name o h) = o)
  ∧ ∃ m, seq_step name function Resume (seq o h) = Some m
         ∧ q_at m = SeqEnd (Some (fresh (dom h))) KeyError
         ∧ q_entity m = o
         ∧ q_journal m = [].
Proof.
  intros Hreg Hnames. split; [|split; [|split]].
  - unfold setattr. rewrite finish_result, finish_calls, finish_after.
    unfold observers. cbn [registry attrs]. rewrite Hreg. cbn.
    by rewrite lookup_insert_eq.
  - destruct names as [|nm names]; [done|]. unfold notify. cbn [notify_from].
    by rewrite Hreg.
  - unfold observe_enter, observe_finally. by rewrite Hreg.
  - eexists. split; [done|]. cbn [seq q_entity q_heap q_journal].
    unfold observe_enter, observe_finally. rewrite Hreg. by cbn.
Qed.

(** X8: the first advance of a stream on an initialised entity suspends
    the consumer and adds the stream's callback to the subscribers of
    its name: the subscribers are then the new callback and those there
    before, one more in number; nothing else about the entity changes
    and no other generator is touched.  When the stream is then closed,
    by whatever exception, every name has the very subscribers it had
    before. *)
Theorem stream_start_then_close (name : string) (o : entity) (h : gmap nat bridge)
    (e : exn) :
  is_Some (registry o) →
  fresh (dom h) ∉ observers o name →
  r_handoff (observe_enter name o h) = Suspended
  ∧ r_position (observe_enter name o h) = AtWait (fresh (dom h))
  ∧ attrs (r_entity (observe_enter name o h)) = attrs o
  ∧ (∀ b, b ∈ observers (r_entity (observe_enter name o h)) name
          ↔ b = fresh (dom h) ∨ b ∈ observers o name)
  ∧ length (observers (r_entity (observe_enter name o h)) name)
    = S (length (observers o name))
  ∧ (∀ n, n ≠ name → observers (r_entity (observe_enter name o h)) n = observers o n)
  ∧ r_heap (observe_enter name o h) = <[fresh (dom h) := state_init]> h
  ∧ h !! fresh (dom h) = None
  ∧ (∀ n b, b ∈ observers
                  (r_entity (observe_throw name (r_position (observe_enter name o h)) e
                               (r_entity (observe_enter name o h))
                               (r_heap (observe_enter name o h)))) n
            ↔ b ∈ observers o n)
  ∧ (∀ n, length (observers
                    (r_entity (observe_throw name (r_position (observe_enter name o h)) e
                                 (r_entity (observe_enter name o h))
                                 (r_heap (observe_enter name o h)))) n)
          = length (observers o n)).
Proof.
  intros [reg Hreg] Hfresh. set (s := fresh (dom h)) in *.
  assert (Hs : h !! s = None) by apply not_elem_of_dom, is_fresh.
  rewrite (observe_enter_fresh name o h reg Hreg Hfresh). fold s.
  cbn [r_handoff r_position r_entity r_heap attrs observe_throw].
  assert (Hother : ∀ n, n ≠ name →
            observers (Entity (attrs o)
                         (Some (<[name := observers o name ++ [s]]> reg))) n
            = observers o n).
  { intros n Hn. rewrite observers_insert, decide_False by done.
    unfold observers. by rewrite Hreg. }
  assert (Hback : ∀ n, observers (observe_finally name s
                         (Entity (attrs o)
                            (Some (<[name := observers o name ++ [s]]> reg)))) n
                       = observers o n).
  { intros n. rewrite observe_finally_observers. case_decide as Hn; [|by apply Hother].
    subst n. rewrite observers_insert, decide_True by done.
    rewrite set_discard_app, set_discard_absent by done. simpl.
    by rewrite decide_True, app_nil_r. }
  split; [done|]. split; [done|]. split; [done|]. split.
  { intros b. rewrite observers_insert, decide_True by done.
    rewrite elem_of_app, list_elem_of_singleton. tauto. }
  split.
  { rewrite observers_insert, decide_True by done. rewrite length_app. simpl. lia. }
  split; [done|]. split; [done|]. split; [done|]. split.
  - intros n b. by rewrite Hback.
  - intros n. by rewrite Hback.
Qed.

(** X9: two streams on one attribute have a slot each: an assignment
    reaches both, and the read of one consumer leaves the value for the
    other, who still reads it. *)
Theorem streams_do_not_interfere (o : entity) (h : gmap nat bridge)
    (name : string) (v : pyobj) (s1 s2 : nat) :
  s1 ∈ observers o name →
  s2 ∈ observers o name →
  s1 ≠ s2 →
  r_handoff (observe_wake s1 (after (setattr send o name v h))
               (world (setattr send o name v h))) = Yielded v
  ∧ r_handoff
      (observe_wake s2
         (r_entity (observe_wake s1 (after (setattr send o name v h))
                      (world (setattr send o name v h))))
         (r_heap (observe_wake s1 (after (setattr send o name v h))
                    (world (setattr send o name v h))))) = Yielded v
  ∧ r_handoff
      (observe_wait s1
         (r_entity (observe_wake s1 (after (setattr send o name v h))
                      (world (setattr send o name v h))))
         (r_heap (observe_wake s1 (after (setattr send o name v h))
                    (world (setattr send o name v h))))) = Suspended.
Proof.
  intros H1 H2 Hne.
  pose proof (setattr_send_in o name v h s1 H1) as E1.
  pose proof (setattr_send_in o name v h s2 H2) as E2.
  unfold observe_wake, observe_wait. rewrite E1. cbn.
  rewrite lookup_total_insert_ne, E2 by done. cbn.
  by rewrite lookup_total_insert_eq.
Qed.

(** X10: a stream does not begin with the value the attribute already
    has: its first advance suspends.  A [notify] for the name then hands
    the current value to the new stream as to every earlier subscriber,
    without touching the attributes, and the woken consumer reads it. *)
Theorem notify_replays_current_value (name : string) (o : entity)
    (h : gmap nat bridge) (u : pyobj) :
  is_Some (registry o) →
  attrs o !! name = Some u →
  fresh (dom h) ∉ observers o name →
  r_handoff (observe_enter name o h) = Suspended
  ∧ result (notify send (r_entity (observe_enter name o h)) [name]
              (r_heap (observe_enter name o h)))
      = inr (length (observers o name) + 1)
  ∧ after (notify send (r_entity (observe_enter name o h)) [name]
             (r_heap (observe_enter name o h)))
      = r_entity (observe_enter name o h)
  ∧ r_handoff
      (observe_wake (fresh (dom h))
         (after (notify send (r_entity (observe_enter name o h)) [name]
                   (r_heap (observe_enter name o h))))
         (world (notify send (r_entity (observe_enter name o h)) [name]
                   (r_heap (observe_enter name o h)))))
      = Yielded u.
Proof.
  intros [reg0 Hreg] Hu Hfresh.
  rewrite (observe_enter_fresh name o h reg0 Hreg Hfresh).
  set (s := fresh (dom h)) in *.
  set (r := Resumed (Entity (attrs o) (Some (<[name := observers o name ++ [s]]> reg0)))
              (<[s := state_init]> h) (AtWait s) Suspended).
  assert (Hattrs : attrs (r_entity r) = attrs o) by done.
  assert (Hobs : observers (r_entity r) name = observers o name ++ [s])
    by (subst r; cbn [r_entity]; by rewrite observers_insert, decide_True).
  split; [done|].
  assert (Hin : s ∈ observers (r_entity r) name)
    by (rewrite Hobs, elem_of_app, list_elem_of_singleton; by right).
  destruct (observers (r_entity r) name) as [|f fs] eqn:Eo; [by destruct (observers o name)|].
  destruct (observers_cons _ _ _ _ Eo) as (reg & Hr & Hn).
  unfold notify. cbn [notify_from]. rewrite Hr, Hn, Hattrs, Hu, notify_loop_fanout.
  pose proof (fanout_quiet send (f :: fs) u (attrs o) (r_heap r) (send_quiet _ _)) as [_ Hq].
  pose proof (fanout_send_in (f :: fs) u (attrs o) (r_heap r) s Hin) as Hslot.
  destruct (fanout send (f :: fs) u (attrs o) (r_heap r)) as [[h1 tr] res].
  cbn [fst snd] in Hq, Hslot |- *. subst res. cbn [result after world].
  split; [|split; [done|]].
  - f_equal. rewrite Hobs, length_app. simpl. lia.
  - unfold observe_wake. by rewrite Hslot.
Qed.

(** ** Drivers *)

Section DriverMore.
Variable name : string.
Variable function : pyobj → reply.

(** One round for a driver that waits with an empty slot. *)
Lemma seq_round m s v :
  q_at m = SeqWait s →
  s ∈ observers (q_entity m) name →
  (∀ e, function v ≠ Raises e) →
  ∃ m', seq_run name function (round function name v) m = Some m'
        ∧ q_at m' = SeqWait s
        ∧ (∀ n, observers (q_entity m') n = observers (q_entity m) n)
        ∧ event (q_heap m' !!! s) = false
        ∧ q_journal m' = q_journal m ++ [Begin v; End v].
Proof.
  intros Hat Hs Hf. unfold round. cbn [app seq_run].
  unfold seq_step at 1. rewrite Hat. cbn [serve].
  set (x := setattr send (q_entity m) name v (q_heap m)).
  assert (Hslot : world x !!! s = Bridge v true) by by apply setattr_send_in.
  unfold seq_step at 1. cbn [q_at q_heap q_entity q_journal]. rewrite Hslot. cbn [event].
  unfold observe_wake. rewrite Hslot. cbn [state_send value].
  unfold seq_take. cbn [r_handoff r_entity r_heap]. unfold seq_body.
  destruct (function v) as [| | |e] eqn:Ef; [| | |by destruct (Hf e)].
  - cbn [app seq_run]. unfold seq_step. cbn [q_at q_heap q_entity q_journal].
    unfold observe_wait. rewrite lookup_total_insert_eq. cbn [event].
    unfold seq_take. cbn [r_handoff r_entity r_heap].
    eexists. split; [done|]. cbn. split; [done|]. split.
    { intros n. apply setattr_observers. }
    by rewrite lookup_total_insert_eq.
  - cbn [app seq_run]. unfold seq_step at 1. cbn [q_at q_heap q_entity q_journal].
    unfold seq_step. cbn [q_at q_heap q_entity q_journal].
    unfold observe_wait. rewrite lookup_total_insert_eq. cbn [event].
    unfold seq_take. cbn [r_handoff r_entity r_heap].
    eexists. split; [done|]. cbn. split; [done|]. split.
    { intros n. apply setattr_observers. }
    rewrite lookup_total_insert_eq. split; [done|]. by rewrite <-app_assoc.
  - cbn [app seq_run]. unfold seq_step at 1. cbn [q_at q_heap q_entity q_journal].
    unfold seq_step. cbn [q_at q_heap q_entity q_journal].
    unfold observe_wait. rewrite lookup_total_insert_eq. cbn [event].
    unfold seq_take. cbn [r_handoff r_entity r_heap].
    eexists. split; [done|]. cbn. split; [done|]. split.
    { intros n. apply setattr_observers. }
    rewrite lookup_total_insert_eq. split; [done|]. by rewrite <-app_assoc.
Qed.

End DriverMore.

(** X11: a [seq] driver that keeps up loses nothing: when each assignment
    finds the driver waiting and its handler invocation is seen through
    before the next assignment, the handler is invoked once for every
    value assigned, in the order of the assignments. *)
Theorem seq_keeps_up (name : string) (function : pyobj → reply)
    (vs : list pyobj) (m : seq_machine) (s : nat) :
  q_at m = SeqWait s →
  s ∈ observers (q_entity m) name →
  (∀ v e, v ∈ vs → function v ≠ Raises e) →
  ∃ m', seq_run name function (concat (map (round function name) vs)) m = Some m'
        ∧ q_at m' = SeqWait s
        ∧ q_journal m' = q_journal m ++ concat (map (λ v, [Begin v; End v]) vs).
Proof.
  revert m. induction vs as [|v vs IH]; intros m Hat Hs Hf.
  - exists m. cbn. by rewrite app_nil_r.
  - destruct (seq_round name function m s v Hat Hs) as (m1 & Hr1 & Hat1 & Ho1 & _ & Hj1).
    { intros e. apply Hf. left. }
    destruct (IH m1 Hat1) as (m' & Hr & Hat' & Hj').
    { by rewrite Ho1. }
    { intros v' e Hv'. apply Hf. by right. }
    exists m'. cbn [map concat]. rewrite seq_run_app, Hr1. cbn.
    split; [done|]. split; [done|]. rewrite Hj', Hj1. by rewrite <-app_assoc.
Qed.

(** X12: from its first advance until it ends, a driver is subscribed:
    in every state a run can reach, the callback of the stream of a
    [seq] or [switch] driver that is under way is among the subscribers
    of the driver's name. *)
Theorem live_driver_is_subscribed (name : string) (function : pyobj → reply) :
  (∀ l o h m s,
     seq_run name function l (seq o h) = Some m →
     seq_stream (q_at m) = Some s →
     s ∈ observers (q_entity m) name)
  ∧ (∀ l o h m s,
       switch_run name function l (switch o h) = Some m →
       switch_stream (w_at m) = Some s →
       s ∈ observers (w_entity m) name).
Proof.
  split; intros l o h m s Hrun Hs.
  - destruct (seq_reachable_subscriptions name function l o h m Hrun) as [_ Hsub].
    apply Hsub. by destruct (q_at m).
  - destruct (switch_reachable_subscriptions name function l o h m Hrun) as [_ Hsub].
    apply Hsub. by destruct (w_at m).
Qed.

Section DriverEnd.
Variable name : string.
Variable function : pyobj → reply.

Lemma seq_step_ended a m m' p e :
  q_at m = SeqEnd p e → seq_step name function a m = Some m' →
  (∃ r, a = Env r) ∧ q_at m' = SeqEnd p e ∧ q_journal m' = q_journal m.
Proof.
  intros Hat. unfold seq_step. rewrite Hat. destruct a; try done.
  destruct (serve r (q_entity m) (q_heap m)) as [o1 h1]. intros [= <-].
  cbn. rewrite ?Hat. eauto.
Qed.

Lemma seq_run_ended l m m' p e :
  q_at m = SeqEnd p e →
  seq_run name function l m = Some m' →
  q_at m' = SeqEnd p e
  ∧ q_journal m' = q_journal m
  ∧ Forall (λ a, ∃ r, a = Env r) l.
Proof.
  revert m. induction l as [|a l IH]; intros m Hat; cbn [seq_run].
  - intros [= <-]. by repeat split.
  - destruct (seq_step name function a m) as [m1|] eqn:Es; [|done]. intros Hrun.
    destruct (seq_step_ended a m m1 p e Hat Es) as (Ha & Hat1 & Hj1).
    destruct (IH m1 Hat1 Hrun) as (? & Hj & ?).
    split; [done|]. split; [congruence|]. by constructor.
Qed.

Lemma seq_step_left a m m' s e :
  q_at m = SeqLeft s e → seq_step name function a m = Some m' →
  ((∃ r, a = Env r) ∧ q_at m' = SeqLeft s e
   ∨ a = Finalize ∧ q_at m' = SeqEnd (Some s) e)
  ∧ q_journal m' = q_journal m.
Proof.
  intros Hat. unfold seq_step. rewrite Hat. destruct a; try done.
  - destruct (serve r (q_entity m) (q_heap m)) as [o1 h1]. intros [= <-].
    cbn. rewrite ?Hat. eauto.
  - intros [= <-]. cbn. eauto.
Qed.

Lemma seq_run_left l m m' s e :
  q_at m = SeqLeft s e →
  seq_run name function l m = Some m' →
  (q_at m' = SeqLeft s e ∨ q_at m' = SeqEnd (Some s) e)
  ∧ q_journal m' = q_journal m
  ∧ Forall (λ a, (∃ r, a = Env r) ∨ a = Finalize) l.
Proof.
  revert m. induction l as [|a l IH]; intros m Hat; cbn [seq_run].
  - intros [= <-]. repeat split; auto.
  - destruct (seq_step name function a m) as [m1|] eqn:Es; [|done]. intros Hrun.
    destruct (seq_step_left a m m1 s e Hat Es) as ([[Ha Hat1]|[Ha Hat1]] & Hj1).
    + destruct (IH m1 Hat1 Hrun) as (? & Hj & ?).
      split; [done|]. split; [congruence|]. constructor; auto.
    + destruct (seq_run_ended l m1 m' _ _ Hat1 Hrun) as (? & Hj & Hl).
      split; [by right|]. split; [congruence|]. constructor; [by right|].
      eapply Forall_impl; [exact Hl|]. intros ??. by left.
Qed.

Lemma finish_task_length t ts ts' : finish_task t ts = Some ts' → length ts' = length ts.
Proof.
  unfold finish_task. destruct (ts !! t) as [[v [| |]]|]; intros [= <-];
    apply length_insert.
Qed.

Lemma switch_step_ended a m m' p e :
  w_at m = SwEnd p e → switch_step name function a m = Some m' →
  ((∃ r, a = Env r) ∨ (∃ t, a = Finish t))
  ∧ w_at m' = SwEnd p e ∧ w_deeds m' = w_deeds m ∧ w_stack m' = w_stack m
  ∧ length (w_tasks m') = length (w_tasks m).
Proof.
  intros Hat. unfold switch_step. rewrite Hat. destruct a; try done.
  - destruct (serve r (w_entity m) (w_heap m)) as [o1 h1]. intros [= <-].
    cbn. rewrite ?Hat. eauto 10.
  - destruct (finish_task t (w_tasks m)) as [ts|] eqn:Ef; [|done].
    cbn [mbind option_bind]. intros [= <-]. cbn.
    repeat split; eauto using finish_task_length.
Qed.

Lemma switch_run_ended l m m' p e :
  w_at m = SwEnd p e →
  switch_run name function l m = Some m' →
  w_at m' = SwEnd p e
  ∧ w_deeds m' = w_deeds m
  ∧ w_stack m' = w_stack m
  ∧ length (w_tasks m') = length (w_tasks m)
  ∧ Forall (λ a, (∃ r, a = Env r) ∨ (∃ t, a = Finish t)) l.
Proof.
  revert m. induction l as [|a l IH]; intros m Hat; cbn [switch_run].
  - intros [= <-]. by repeat split.
  - destruct (switch_step name function a m) as [m1|] eqn:Es; [|done]. intros Hrun.
    destruct (switch_step_ended a m m1 p e Hat Es) as (Ha & Hat1 & Hd1 & Hs1 & Hl1).
    destruct (IH m1 Hat1 Hrun) as (? & Hd & Hs & Hl & ?).
    split; [done|]. split; [congruence|]. split; [congruence|].
    split; [congruence|]. by constructor.
Qed.

Lemma switch_step_left a m m' s e :
  w_at m = SwLeft s e → switch_step name function a m = Some m' →
  (((∃ r, a = Env r) ∨ (∃ t, a = Finish t)) ∧ w_at m' = SwLeft s e
   ∨ a = Finalize ∧ w_at m' = SwEnd (Some s) e)
  ∧ w_deeds m' = w_deeds m ∧ w_stack m' = w_stack m
  ∧ length (w_tasks m') = length (w_tasks m).
Proof.
  intros Hat. unfold switch_step. rewrite Hat. destruct a; try done.
  - destruct (serve r (w_entity m) (w_heap m)) as [o1 h1]. intros [= <-].
    cbn. rewrite ?Hat. eauto 10.
  - destruct (finish_task t (w_tasks m)) as [ts|] eqn:Ef; [|done].
    cbn [mbind option_bind]. intros [= <-]. cbn.
    repeat split; eauto 10 using finish_task_length.
  - intros [= <-]. cbn. split; [by right|done].
Qed.

Lemma switch_run_left l m m' s e :
  w_at m = SwLeft s e →
  switch_run name function l m = Some m' →
  (w_at m' = SwLeft s e ∨ w_at m' = SwEnd (Some s) e)
  ∧ w_deeds m' = w_deeds m
  ∧ w_stack m' = w_stack m
  ∧ length (w_tasks m') = length (w_tasks m)
  ∧ Forall (λ a, (∃ r, a = Env r) ∨ (∃ t, a = Finish t) ∨ a = Finalize) l.
Proof.
  revert m. induction l as [|a l IH]; intros m Hat; cbn [switch_run].
  - intros [= <-]. repeat split; auto.
  - destruct (switch_step name function a m) as [m1|] eqn:Es; [|done]. intros Hrun.
    destruct (switch_step_left a m m1 s e Hat Es)
      as ([[Ha Hat1]|[Ha Hat1]] & Hd1 & Hs1 & Hl1).
    + destruct (IH m1 Hat1 Hrun) as (? & Hd & Hs & Hl & ?).
      split; [done|]. split; [congruence|]. split; [congruence|].
      split; [congruence|]. constructor; [|done]. destruct Ha; auto.
    + destruct (switch_run_ended l m1 m' _ _ Hat1 Hrun) as (? & Hd & Hs & Hl & Hall).
      split; [by right|]. split; [congruence|]. split; [congruence|].
      split; [congruence|]. constructor; [auto|].
      eapply Forall_impl; [exact Hall|]. intros ? [?|?]; auto.
Qed.

End DriverEnd.

(** X13: a driver that has ended stays ended.  Whatever is scheduled
    after a [seq] driver has left by an exception, its handler is not
    invoked again; after a [switch] driver has left, it calls no
    handler, creates no task and requests no cancellation.  The only
    steps still possible are entity operations, for [switch] the ends of
    tasks created before and, when the driver left its stream suspended,
    the one finalization of that stream. *)
Theorem ended_driver_is_inert (name : string) (function : pyobj → reply) :
  (∀ l m m' p e,
     q_at m = SeqEnd p e →
     seq_run name function l m = Some m' →
     q_at m' = SeqEnd p e
     ∧ q_journal m' = q_journal m
     ∧ Forall (λ a, ∃ r, a = Env r) l)
  ∧ (∀ l m m' p e,
       w_at m = SwEnd p e →
       switch_run name function l m = Some m' →
       w_at m' = SwEnd p e
       ∧ w_deeds m' = w_deeds m
       ∧ w_stack m' = w_stack m
       ∧ length (w_tasks m') = length (w_tasks m)
       ∧ Forall (λ a, (∃ r, a = Env r) ∨ (∃ t, a = Finish t)) l)
  ∧ (∀ l m m' s e,
       q_at m = SeqLeft s e →
       seq_run name function l m = Some m' →
       (q_at m' = SeqLeft s e ∨ q_at m' = SeqEnd (Some s) e)
       ∧ q_journal m' = q_journal m
       ∧ Forall (λ a, (∃ r, a = Env r) ∨ a = Finalize) l)
  ∧ (∀ l m m' s e,
       w_at m = SwLeft s e →
       switch_run name function l m = Some m' →
       (w_at m' = SwLeft s e ∨ w_at m' = SwEnd (Some s) e)
       ∧ w_deeds m' = w_deeds m
       ∧ w_stack m' = w_stack m
       ∧ length (w_tasks m') = length (w_tasks m)
       ∧ Forall (λ a, (∃ r, a = Env r) ∨ (∃ t, a = Finish t) ∨ a = Finalize) l).
Proof.
  split; [|split; [|split]].
  - intros l m m' p e. apply seq_run_ended.
  - intros l m m' p e. apply switch_run_ended.
  - intros l m m' s e. apply seq_run_left.
  - intros l m m' s e. apply switch_run_left.
Qed.

(** X14: a failure of the handler ends the [seq] driver with that very
    exception, whether it is raised by the call or by the awaited
    result, and changes nothing on the entity: the attributes and the
    subscriptions, that of the driver's own stream included, are as they
    were, for the driver does not close its stream.  When the stream it
    left is finalized, the driver's callback is taken off its name,
    every other subscriber stays subscribed wherever it was, and the
    attributes and the generators are untouched. *)
Theorem seq_handler_failure_is_local (name : string) (function : pyobj → reply)
    (m : seq_machine) (s : nat) (v : pyobj) (e : exn) :
  (q_at m = SeqAwait s v →
     ∃ m', seq_step name function (Throw e) m = Some m'
       ∧ q_at m' = SeqLeft s e
       ∧ q_journal m' = q_journal m ++ [Abort v]
       ∧ q_entity m' = q_entity m
       ∧ q_heap m' = q_heap m)
  ∧ (q_at m = SeqWait s →
     q_heap m !!! s = Bridge v true →
     function v = Raises e →
     ∃ m', seq_step name function Wake m = Some m'
       ∧ q_at m' = SeqLeft s e
       ∧ q_journal m' = q_journal m ++ [Begin v; Abort v]
       ∧ q_entity m' = q_entity m
       ∧ q_heap m' = <[s := Bridge v false]> (q_heap m))
  ∧ (q_at m = SeqLeft s e →
     ∃ m', seq_step name function Finalize m = Some m'
       ∧ q_at m' = SeqEnd (Some s) e
       ∧ q_journal m' = q_journal m
       ∧ attrs (q_entity m') = attrs (q_entity m)
       ∧ q_heap m' = q_heap m
       ∧ (s ∉ observers (q_entity m') name)
       ∧ (∀ n s', s' ≠ s →
            s' ∈ observers (q_entity m') n ↔ s' ∈ observers (q_entity m) n)).
Proof.
  split; [|split].
  - intros Hat. unfold seq_step. rewrite Hat. eexists. by split.
  - intros Hat Hslot Hf. unfold seq_step. rewrite Hat, Hslot. cbn [event].
    unfold observe_wake, seq_take. rewrite Hslot. cbn [state_send value r_handoff].
    unfold seq_body. cbn [r_entity r_heap]. rewrite Hf.
    eexists. by split.
  - intros Hat. unfold seq_step. rewrite Hat. eexists. split; [done|]. cbn.
    repeat split; try done.
    + apply observe_finally_attrs.
    + apply observe_finally_gone.
    + rewrite observe_finally_observers.
      case_decide; [by apply set_discard_other|done].
    + rewrite observe_finally_observers.
      case_decide; [by apply set_discard_other|done].
Qed.

(** *** What the handler is given *)

Lemma fanout_send_cases fs v a (h : gmap nat bridge) b :
  (fanout send fs v a h).1.1 !!! b = Bridge v true
  ∨ (fanout send fs v a h).1.1 !!! b = h !!! b.
Proof.
  destruct (decide (b ∈ fs)); [left; by apply fanout_send_in|right; by apply fanout_send_out].
Qed.

Lemma notify_from_send_cases (o : entity) ns (h : gmap nat bridge) n b :
  (notify_from send o ns h n).1.1 !!! b = h !!! b
  ∨ ∃ nm u, attrs o !! nm = Some u
            ∧ (notify_from send o ns h n).1.1 !!! b = Bridge u true.
Proof.
  revert h n. induction ns as [|nm ns IH]; intros h n; cbn [notify_from]; [by left|].
  destruct (registry o) as [reg|]; [|by left].
  destruct (reg !! nm) as [[|f fs]|]; try apply IH.
  destruct (attrs o !! nm) as [u|] eqn:Eu; [|by left].
  rewrite notify_loop_fanout.
  pose proof (fanout_send_cases (f :: fs) u (attrs o) h b) as Hc.
  destruct (fanout_quiet send (f :: fs) u (attrs o) h (send_quiet _ _)) as [_ Hq].
  destruct (fanout send (f :: fs) u (attrs o) h) as [[h1 tr] res].
  cbn [fst snd] in *. subst res.
  specialize (IH h1 (n + length (f :: fs))).
  destruct (notify_from send o ns h1 (n + length (f :: fs))) as [[h2 tr2] r2].
  cbn [fst snd] in *. destruct IH as [IH|IH]; [|by right].
  rewrite IH. destruct Hc as [Hc|Hc]; [right; eauto|by left].
Qed.

Section Vouched.
Variable name : string.
Variable function : pyobj → reply.
Variable V : pyobj → Prop.

Lemma serve_vouched r (o : entity) h :
  admits V (Env r) →
  (∀ n u, attrs o !! n = Some u → V u) →
  (∀ b, event (h !!! b) = true → V (value (h !!! b))) →
  (∀ n u, attrs (serve r o h).1 !! n = Some u → V u)
  ∧ (∀ b, event ((serve r o h).2 !!! b) = true → V (value ((serve r o h).2 !!! b))).
Proof.
  intros Hr Ha Hh. destruct r as [nm v|nm|ns]; cbn [serve fst snd admits] in *.
  - unfold setattr. rewrite finish_after, finish_world. cbn [attrs]. split.
    + intros n u. destruct (decide (nm = n)) as [->|Hne].
      * rewrite lookup_insert_eq. by intros [= <-].
      * rewrite lookup_insert_ne by done. apply Ha.
    + intros b. destruct (fanout_send_cases
        (observers (Entity (<[nm:=v]> (attrs o)) (registry o)) nm) v
        (<[nm:=v]> (attrs o)) h b) as [-> | ->]; [done|apply Hh].
  - unfold delattr. destruct (attrs o !! nm) as [u0|]; [|done].
    rewrite finish_after, finish_world. cbn [attrs]. split.
    + intros n u Hn. apply lookup_delete_Some in Hn as [_ Hn]. by eapply Ha.
    + intros b. destruct (fanout_send_cases
        (observers (Entity (delete nm (attrs o)) (registry o)) nm) DELETED
        (delete nm (attrs o)) h b) as [-> | ->]; [done|apply Hh].
  - unfold notify.
    pose proof (notify_from_send_cases o ns h 0) as Hc.
    destruct (notify_from send o ns h 0) as [[h1 tr] res]. cbn [fst snd after world] in *.
    split; [done|]. intros b. destruct (Hc b) as [-> | (nm & u & Hu & ->)]; [apply Hh|].
    intros _. by eapply Ha.
Qed.

Lemma seq_body_vouched s v o h j :
  V v →
  (∀ n u, attrs o !! n = Some u → V u) →
  (∀ b, event (h !!! b) = true → V (value (h !!! b))) →
  (∀ v, Begin v ∈ j → V v) →
  seq_vouched V (seq_body function s v o h j).
Proof.
  intros Hv Ha Hh Hj. unfold seq_body.
  assert (Hj' : ∀ k v', Begin v' ∈ j ++ Begin v :: k → (∀ v', Begin v' ∈ k → V v') → V v').
  { intros k v' [?|[?|?]%elem_of_cons]%elem_of_app Hk; [by apply Hj|by simplify_eq|by apply Hk]. }
  destruct (function v); (split; [|split]); cbn; try done.
  - intros v' Hin. apply (Hj' _ _ Hin). by intros v'' [?|?%not_elem_of_nil]%elem_of_cons.
  - intros v' Hin. apply (Hj' _ _ Hin). by intros v'' ?%not_elem_of_nil.
  - intros v' Hin. apply (Hj' _ _ Hin). by intros v'' ?%not_elem_of_nil.
  - intros v' Hin. apply (Hj' _ _ Hin). by intros v'' [?|?%not_elem_of_nil]%elem_of_cons.
Qed.

Lemma seq_read_vouched s (o : entity) h j :
  event (h !!! s) = true →
  (∀ n u, attrs o !! n = Some u → V u) →
  (∀ b, event (h !!! b) = true → V (value (h !!! b))) →
  (∀ v, Begin v ∈ j → V v) →
  seq_vouched V (seq_take function s (observe_wake s o h) j).
Proof.
  intros Hs Ha Hh Hj. unfold observe_wake, seq_take. cbn.
  apply seq_body_vouched; try done; [by apply Hh|].
  intros b. destruct (decide (b = s)) as [->|Hne].
  - by rewrite lookup_total_insert_eq.
  - rewrite lookup_total_insert_ne by done. apply Hh.
Qed.

Lemma seq_step_vouched a m m' :
  seq_vouched V m → admits V a → seq_step name function a m = Some m' →
  seq_vouched V m'.
Proof.
  intros (Ha & Hh & Hj) Hadm. unfold seq_step.
  destruct a, (q_at m) eqn:Eat; try done;
    try (pose proof (serve_vouched r (q_entity m) (q_heap m) Hadm Ha Hh) as [Ha1 Hh1];
         destruct (serve r (q_entity m) (q_heap m)) as [o1 h1];
         intros [= <-]; by split);
    try (intros [= <-]; (split; [|split]); cbn;
         [intros n u; rewrite ?observe_finally_attrs; apply Ha|done|];
         first [done|intros v' [?|?%list_elem_of_singleton]%elem_of_app;
                     [by apply Hj|done]]).
  - intros [= <-]. unfold observe_enter.
    assert (Hh1 : ∀ b, event (<[fresh (dom (q_heap m)):=state_init]> (q_heap m) !!! b) = true →
              V (value (<[fresh (dom (q_heap m)):=state_init]> (q_heap m) !!! b))).
    { intros b. destruct (decide (b = fresh (dom (q_heap m)))) as [->|Hne].
      - by rewrite lookup_total_insert_eq.
      - rewrite lookup_total_insert_ne by done. apply Hh. }
    destruct (registry (q_entity m)) as [reg|].
    + unfold observe_wait. rewrite lookup_total_insert_eq. cbn. by split.
    + unfold seq_take. cbn.
      split; [intros n u; cbn [q_entity]; rewrite observe_finally_attrs; apply Ha
             |by split].
  - intros [= <-]. unfold observe_wait.
    destruct (event (q_heap m !!! s)) eqn:Es; [by apply seq_read_vouched|].
    unfold seq_take. cbn. by split.
  - destruct (event (q_heap m !!! s)) eqn:Es; [|done]. intros [= <-].
    by apply seq_read_vouched.
Qed.

End Vouched.

(** X15: the handler of a [seq] driver is only ever invoked with values
    that came from the entity: when the attribute values at the start,
    every value assigned later, and [DELETED] if an attribute is ever
    deleted, all lie in a set [V], then so does every value the handler
    is invoked with.  In particular the [None] that the [state]
    generator starts with is never delivered unless it was assigned. *)
Theorem handler_receives_assigned_values (name : string) (function : pyobj → reply)
    (V : pyobj → Prop) (l : list action) (o : entity) (h : gmap nat bridge)
    (m : seq_machine) (v : pyobj) :
  (∀ n u, attrs o !! n = Some u → V u) →
  (∀ b, event (h !!! b) = true → V (value (h !!! b))) →
  Forall (admits V) l →
  seq_run name function l (seq o h) = Some m →
  Begin v ∈ q_journal m →
  V v.
Proof.
  intros Ha Hh Hl Hrun.
  enough (Hm : seq_vouched V m) by apply Hm.
  assert (H0 : seq_vouched V (seq o h)).
  { split; [done|]. split; [done|]. by intros v' ?%not_elem_of_nil. }
  clear Ha Hh. revert H0 Hrun. generalize (seq o h). induction Hl as [|a l Hadm Hl IH];
    intros m0 H0; cbn [seq_run].
  - by intros [= <-].
  - destruct (seq_step name function a m0) as [m1|] eqn:Es; [|done].
    apply IH. by eapply seq_step_vouched.
Qed.

(** *** How often the handler is invoked *)

Lemma begins_app j1 j2 : begins (j1 ++ j2) = begins j1 + begins j2.
Proof. unfold begins. by rewrite List.filter_app, length_app. Qed.

Lemma observe_wait_set s (o : entity) h :
  event (h !!! s) = true → observe_wait s o h = observe_wake s o h.
Proof. intros Hs. unfold observe_wait, observe_wake. by rewrite Hs. Qed.

Section Counted.
Variable name : string.
Variable function : pyobj → reply.

Lemma seq_read_counted s (o : entity) h j :
  begins (q_journal (seq_take function s (observe_wake s o h) j))
  + seq_pending (seq_take function s (observe_wake s o h) j)
  = begins j + 1.
Proof.
  unfold observe_wake, seq_take. cbn [state_send r_handoff r_entity r_heap].
  unfold seq_body, seq_pending.
  destruct (function (value (h !!! s))); cbn [q_journal q_at q_heap seq_stream];
    rewrite ?observe_finally_attrs, begins_app; cbn [observe_close observe_throw r_heap];
    rewrite ?lookup_total_insert_eq; cbn; lia.
Qed.

Lemma seq_step_counted a m m' :
  seq_step name function a m = Some m' →
  begins (q_journal m') + seq_pending m'
  ≤ begins (q_journal m) + seq_pending m + requests [a].
Proof.
  unfold seq_step.
  destruct a, (q_at m) eqn:Eat; try done;
    try (destruct (serve r (q_entity m) (q_heap m)) as [o1 h1];
         intros [= <-]; unfold seq_pending; cbn [q_journal q_at q_heap]; rewrite Eat;
         cbn; repeat case_match; lia);
    try (intros [= <-]; unfold seq_pending; cbn [q_journal q_at q_heap seq_stream];
         rewrite ?begins_app, Eat; cbn; repeat case_match; lia).
  - intros [= <-]. unfold observe_enter. destruct (registry (q_entity m)) as [reg|].
    + unfold observe_wait. rewrite lookup_total_insert_eq. cbn [state_init event].
      unfold seq_take, seq_pending.
      cbn [r_handoff r_entity r_heap q_journal q_at q_heap seq_stream].
      rewrite lookup_total_insert_eq, Eat. cbn. lia.
    + unfold seq_take, seq_pending. cbn [r_handoff q_journal q_at seq_stream].
      rewrite Eat. cbn. lia.
  - intros [= <-]. destruct (event (q_heap m !!! s)) eqn:Es.
    + rewrite observe_wait_set by done.
      rewrite seq_read_counted. unfold seq_pending. rewrite Eat. cbn. rewrite Es. lia.
    + unfold observe_wait. rewrite Es. unfold seq_take, seq_pending.
      cbn [r_handoff r_entity r_heap q_journal q_at q_heap seq_stream].
      rewrite Eat. cbn. rewrite Es. lia.
  - destruct (event (q_heap m !!! s)) eqn:Es; [|done]. intros [= <-].
    rewrite seq_read_counted. unfold seq_pending. rewrite Eat. cbn. rewrite Es. lia.
Qed.

End Counted.

(** X16: the handler of a [seq] driver is invoked at most once for each
    operation performed on the entity, by other code or by the handler
    itself: in every run, the invocations begun, together with the one
    still due for a value in the slot, do not outnumber the entity
    operations scheduled. *)
Theorem invocations_bounded_by_requests (name : string) (function : pyobj → reply)
    (l : list action) (o : entity) (h : gmap nat bridge) (m : seq_machine) :
  seq_run name function l (seq o h) = Some m →
  begins (q_journal m) + seq_pending m ≤ requests l.
Proof.
  enough (H : ∀ l m0 m, seq_run name function l m0 = Some m →
            begins (q_journal m) + seq_pending m
            ≤ begins (q_journal m0) + seq_pending m0 + requests l).
  { intros Hrun. apply H in Hrun. by cbn in Hrun. }
  clear. intros l. induction l as [|a l IH]; intros m0 m; cbn [seq_run].
  - intros [= <-]. cbn. lia.
  - destruct (seq_step name function a m0) as [m1|] eqn:Es; [|done]. intros Hrun.
    apply IH in Hrun. apply seq_step_counted in Es.
    change (requests (a :: l)) with (requests ([a] ++ l)).
    unfold requests in *. rewrite List.filter_app, length_app. lia.
Qed.

(** *** The exit stack of [switch] *)

Lemma created_app d1 d2 : created (d1 ++ d2) = created d1 + created d2.
Proof. unfold created. by rewrite List.filter_app, length_app. Qed.

Lemma created_cancels l : created (map CancelCall l) = 0.
Proof. induction l as [|t l IH]; [done|]. exact IH. Qed.

Section Accounted.
Variable name : string.
Variable function : pyobj → reply.

Lemma switch_body_accounted s v m :
  switch_accounted m → switch_accounted (switch_body function s v m).
Proof.
  intros [Hc Hs]. unfold switch_body, switch_accounted.
  pose proof (close_length (w_stack m) (w_tasks m)) as Hl.
  pose proof (close_deeds (w_stack m) (w_tasks m)) as Hd.
  destruct (function v); [|destruct (close _ _) as [ts ds]..];
    cbn [w_deeds w_tasks w_stack fst snd] in *; subst;
    rewrite ?created_app, ?created_cancels, ?length_app, ?Hl; cbn.
  - split; [lia|done].
  - split; [lia|]. right. split; [f_equal; lia|by destruct ts].
  - split; [lia|by left].
  - split; [lia|by left].
Qed.

Lemma switch_take_accounted s r m :
  switch_accounted m → switch_accounted (switch_take function s r m).
Proof.
  intros Hm. unfold switch_take. destruct (r_handoff r).
  - by apply switch_body_accounted.
  - done.
  - destruct Hm as [Hc Hs]. unfold switch_accounted.
    pose proof (close_length (w_stack m) (w_tasks m)) as Hl.
    pose proof (close_deeds (w_stack m) (w_tasks m)) as Hd.
    destruct (close _ _) as [ts ds]. cbn [w_deeds w_tasks w_stack fst snd] in *. subst.
    rewrite created_app, created_cancels, Hl. split; [lia|by left].
Qed.

Lemma switch_step_accounted a m m' :
  switch_accounted m → switch_step name function a m = Some m' →
  switch_accounted m'.
Proof.
  intros Hm. unfold switch_step.
  destruct a, (w_at m) eqn:Eat; try done;
    try (destruct (serve r (w_entity m) (w_heap m)) as [o1 h1]; by intros [= <-]);
    try (destruct (finish_task t (w_tasks m)) as [ts|] eqn:Ef; [|done];
         cbn [mbind option_bind]; intros [= <-];
         apply finish_task_length in Ef; destruct Hm as [Hc Hs];
         unfold switch_accounted; cbn [w_deeds w_tasks w_stack]; rewrite Ef;
         split; [done|]; destruct Hs as [?|(?&?)]; [by left|right];
         split; [done|]; by destruct ts, (w_tasks m));
    try (intros [= <-]; by apply switch_take_accounted).
  - destruct (event (w_heap m !!! s)); [|done]. intros [= <-].
    by apply switch_take_accounted.
  - by intros [= <-].
  - destruct Hm as [Hc Hs]. unfold switch_accounted.
    pose proof (close_length (w_stack m) (w_tasks m)) as Hl.
    pose proof (close_deeds (w_stack m) (w_tasks m)) as Hd.
    destruct (close _ _) as [ts ds]. intros [= <-].
    cbn [w_deeds w_tasks w_stack fst snd] in *. subst.
    rewrite created_app, created_cancels, Hl. split; [lia|by left].
  - by intros [= <-].
Qed.

End Accounted.

(** X17: the exit stack of a [switch] driver does not grow: in every
    state a run can reach it is empty or holds the cancellation of the
    one task created last, and the driver has created exactly as many
    tasks as its created-deeds say, none being ever dropped from its
    list. *)
Theorem switch_stack_holds_latest_task (name : string) (function : pyobj → reply)
    (l : list action) (o : entity) (h : gmap nat bridge) (m : switch_machine) :
  switch_run name function l (switch o h) = Some m →
  created (w_deeds m) = length (w_tasks m)
  ∧ length (w_stack m) ≤ 1
  ∧ (∀ t, t ∈ w_stack m → S t = length (w_tasks m)).
Proof.
  intros Hrun.
  assert (Hm : switch_accounted m).
  { apply (switch_run_invariant name function switch_accounted
             (switch_step_accounted name function) l (switch o h) m); [|done].
    split; [done|by left]. }
  destruct Hm as [Hc Hs]. split; [done|].
  destruct Hs as [->|(-> & Hne)].
  - split; [simpl; lia|]. by intros t ?%not_elem_of_nil.
  - split; [simpl; lia|]. intros t ->%list_elem_of_singleton.
    destruct (w_tasks m); [done|]. simpl. lia.
Qed.

(** *** Other attributes *)

Lemma fanout_send_keys fs v a (h : gmap nat bridge) b :
  is_Some (h !! b) → is_Some ((fanout send fs v a h).1.1 !! b).
Proof.
  revert h. induction fs as [|f fs IH]; intros h Hb; [done|]. cbn [fanout send].
  specialize (IH (<[f:=(state_send (Update v) (h !!! f)).1]> h)).
  destruct (fanout send fs v a _) as [[h2 tr] r]. cbn [fst] in *.
  apply IH. rewrite lookup_insert_is_Some. destruct (decide (f = b)); auto.
Qed.

Lemma notify_from_send_keys (o : entity) ns (h : gmap nat bridge) n b :
  is_Some (h !! b) → is_Some ((notify_from send o ns h n).1.1 !! b).
Proof.
  revert h n. induction ns as [|nm ns IH]; intros h n Hb; cbn [notify_from]; [done|].
  destruct (registry o) as [reg|]; [|done].
  destruct (reg !! nm) as [[|f fs]|]; try by apply IH.
  destruct (attrs o !! nm) as [u|]; [|done].
  rewrite notify_loop_fanout.
  pose proof (fanout_send_keys (f :: fs) u (attrs o) h b Hb) as Hk.
  destruct (fanout_quiet send (f :: fs) u (attrs o) h (send_quiet _ _)) as [_ Hq].
  destruct (fanout send (f :: fs) u (attrs o) h) as [[h1 tr] res].
  cbn [fst snd] in *. subst res.
  specialize (IH h1 (n + length (f :: fs)) Hk).
  by destruct (notify_from send o ns h1 (n + length (f :: fs))) as [[h2 tr2] r2].
Qed.

Lemma serve_keys r (o : entity) h b :
  is_Some (h !! b) → is_Some ((serve r o h).2 !! b).
Proof.
  intros Hb. destruct r as [nm v|nm|ns]; cbn [serve snd].
  - unfold setattr. rewrite finish_world. by apply fanout_send_keys.
  - unfold delattr. destruct (attrs o !! nm); [|done].
    rewrite finish_world. by apply fanout_send_keys.
  - unfold notify. pose proof (notify_from_send_keys o ns h 0 b Hb).
    by destruct (notify_from send o ns h 0) as [[? ?] ?].
Qed.

Lemma set_discard_subset {A} `{EqDecision A} (x y : A) l :
  y ∈ set_discard x l → y ∈ l.
Proof.
  induction l as [|z l IH]; [done|]. simpl. case_decide.
  - intros ?. right. by apply IH.
  - intros [->|?]%elem_of_cons; [left|right; by apply IH].
Qed.

Lemma observe_finally_subset name s (o : entity) n b :
  b ∈ observers (observe_finally name s o) n → b ∈ observers o n.
Proof.
  rewrite observe_finally_observers. case_decide; [apply set_discard_subset|done].
Qed.

Section SingleName.
Variable name : string.
Variable function : pyobj → reply.

Lemma seq_take_housed s (r : resumed) j :
  (∀ n b, b ∈ observers (r_entity r) n → is_Some (r_heap r !! b)) →
  (∀ n, n ≠ name → s ∉ observers (r_entity r) n) →
  seq_housed (seq_take function s r j)
  ∧ seq_single_name name (seq_take function s r j).
Proof.
  intros Hh Hs. unfold seq_take, seq_body.
  destruct (r_handoff r) as [v| |e]; [destruct (function v)| |];
    (split; [intros n b Hb|intros s' n H Hn]); simplify_eq/=; eauto;
    eapply Hh, observe_finally_subset, Hb.
Qed.

Lemma seq_step_single_name a m m' :
  seq_housed m ∧ seq_single_name name m →
  seq_step name function a m = Some m' →
  seq_housed m' ∧ seq_single_name name m'.
Proof.
  intros [Hh Hs]. unfold seq_step.
  destruct a, (q_at m) eqn:Eat; try done;
    try (pose proof (serve_observers r (q_entity m) (q_heap m)) as Ho;
         pose proof (serve_keys r (q_entity m) (q_heap m)) as Hk;
         destruct (serve r (q_entity m) (q_heap m)) as [o1 h1]; cbn [fst snd] in *;
         intros [= <-]; split;
         [intros n b Hb; cbn in *; rewrite Ho in Hb; eauto
         |intros s' n H Hn; cbn in *; rewrite Ho; apply Hs; [by rewrite Eat|done]]).
  - (* first advance *)
    intros [= <-]. set (s := fresh (dom (q_heap m))).
    assert (Hfresh : q_heap m !! s = None) by apply not_elem_of_dom, is_fresh.
    unfold observe_enter. fold s. destruct (registry (q_entity m)) as [reg|] eqn:Er.
    + unfold observe_wait. rewrite lookup_total_insert_eq. cbn [state_init event].
      apply seq_take_housed; cbn [r_entity r_heap].
      * intros n b. rewrite observers_insert, lookup_insert_is_Some.
        case_decide as Hn.
        -- unfold set_add. case_decide.
           ++ intros Hb. destruct (decide (s = b)); [by left|right]. split; [done|].
              apply (Hh name). unfold observers. by rewrite Er.
           ++ intros [Hb| ->%list_elem_of_singleton]%elem_of_app; [|by left].
              destruct (decide (s = b)); [by left|right]. split; [done|].
              apply (Hh name). unfold observers. by rewrite Er.
        -- intros Hb. destruct (decide (s = b)); [by left|right]. split; [done|].
           apply (Hh n). unfold observers. by rewrite Er.
      * intros n Hn. rewrite observers_insert, decide_False by done. intros Hb.
        assert (is_Some (q_heap m !! s)) as [? ?]; [|congruence].
        apply (Hh n). unfold observers. by rewrite Er.
    + unfold seq_take. cbn. split.
      * intros n b Hb. cbn in *. apply observe_finally_subset in Hb.
        rewrite lookup_insert_is_Some. destruct (decide (s = b)); [by left|right]. eauto.
      * by intros s' n H.
  - (* next advance *)
    intros [= <-]. unfold observe_wait. destruct (event (q_heap m !!! s)).
    + apply seq_take_housed; cbn [r_entity r_heap state_send fst].
      * intros n b Hb. rewrite lookup_insert_is_Some.
        destruct (decide (s = b)); [by left|right]. eauto.
      * intros n Hn. apply Hs; [by rewrite Eat|done].
    + apply seq_take_housed; cbn [r_entity r_heap]; [done|].
      intros n Hn. apply Hs; [by rewrite Eat|done].
  - (* wake *)
    destruct (event (q_heap m !!! s)); [|done]. intros [= <-].
    unfold observe_wake. apply seq_take_housed; cbn [r_entity r_heap state_send fst].
    + intros n b Hb. rewrite lookup_insert_is_Some.
      destruct (decide (s = b)); [by left|right]. eauto.
    + intros n Hn. apply Hs; [by rewrite Eat|done].
  - intros [= <-]. split; [done|]. intros s' n H Hn. cbn in *. simplify_eq.
    apply Hs; [by rewrite Eat|done].
  - intros [= <-]. split; [done|by intros s' n H].
  - intros [= <-]. split; [done|by intros s' n H].
  - intros [= <-]. split; [|by intros s' n H].
    intros n b Hb. cbn in *. eapply Hh, observe_finally_subset, Hb.
  - intros [= <-]. split; [done|by intros s' n H].
  - intros [= <-]. split; [|by intros s' n H].
    intros n b Hb. cbn in *. eapply Hh, observe_finally_subset, Hb.
Qed.

End SingleName.

(** X18: a [seq] driver is woken by its own attribute only.  Started on
    an entity whose subscribed callbacks all belong to generators of the
    store, the driver has its callback under its own name and no other;
    so while it waits with an empty slot, a set or a delete of a
    different attribute leaves the slot empty: the driver cannot be
    woken and its handler is not invoked. *)
Theorem driver_woken_by_its_attribute_only (name : string)
    (function : pyobj → reply) (l : list action) (o : entity)
    (h : gmap nat bridge) (m : seq_machine) (s : nat) (n : string) (r : request) :
  (∀ n b, b ∈ observers o n → is_Some (h !! b)) →
  seq_run name function l (seq o h) = Some m →
  q_at m = SeqWait s →
  event (q_heap m !!! s) = false →
  n ≠ name →
  (∃ v, r = DoSet n v) ∨ r = DoDel n →
  (∀ n', n' ≠ name → s ∉ observers (q_entity m) n')
  ∧ ∃ m', seq_step name function (Env r) m = Some m'
          ∧ q_at m' = SeqWait s
          ∧ q_journal m' = q_journal m
          ∧ event (q_heap m' !!! s) = false
          ∧ seq_step name function Wake m' = None.
Proof.
  intros Hhoused Hrun Hat Hslot Hn Hr.
  assert (Hinv : seq_housed m ∧ seq_single_name name m).
  { apply (seq_run_invariant name function
             (λ m, seq_housed m ∧ seq_single_name name m)
             (seq_step_single_name name function) l (seq o h) m); [|done].
    split; [done|by intros s' n' H]. }
  destruct Hinv as [_ Hsingle].
  assert (Hout : ∀ n', n' ≠ name → s ∉ observers (q_entity m) n').
  { intros n' Hn'. apply Hsingle; [by rewrite Hat|done]. }
  split; [done|].
  assert (Hkeep : (serve r (q_entity m) (q_heap m)).2 !!! s = q_heap m !!! s).
  { destruct Hr as [[v ->] | ->]; cbn [serve snd].
    - apply setattr_send_out. by apply Hout.
    - unfold delattr. destruct (attrs (q_entity m) !! n); [|done].
      rewrite finish_world. apply fanout_send_out. by apply Hout. }
  unfold seq_step at 1. rewrite Hat.
  destruct (serve r (q_entity m) (q_heap m)) as [o1 h1] eqn:Es. cbn [snd] in Hkeep.
  eexists. split; [done|]. cbn [q_at q_journal q_heap].
  rewrite Hkeep, Hslot. repeat split; try done.
  unfold seq_step. cbn [q_at q_heap]. by rewrite Hkeep, Hslot.
Qed.

(** *** A forced restart *)

(** X19: [notify] restarts a [switch] driver without changing the
    entity.  When the driver waits and the handler answers the current
    value of its attribute with a coroutine, a [notify] for the name
    leaves every attribute as it is and wakes the driver, which calls
    the handler with the current value, requests the cancellation of the
    task it guards and creates a new one, the only active task
    afterwards. *)
Theorem notify_restarts_switch (name : string) (function : pyobj → reply)
    (l : list action) (o : entity) (h : gmap nat bridge) (m : switch_machine)
    (s : nat) (u : pyobj) :
  switch_run name function l (switch o h) = Some m →
  w_at m = SwWait s →
  attrs (w_entity m) !! name = Some u →
  function u = Awaitable →
  ∃ m1 m2,
    switch_step name function (Env (DoNotify [name])) m = Some m1
    ∧ w_entity m1 = w_entity m
    ∧ switch_step name function Wake m1 = Some m2
    ∧ w_entity m2 = w_entity m
    ∧ alive (w_tasks m2) = [Task u Active]
    ∧ w_deeds m2 = w_deeds m ++ [Called u] ++ map CancelCall (w_stack m)
                     ++ [Created (length (w_tasks m)) u].
Proof.
  intros Hrun Hat Hu Hf.
  destruct (switch_reachable_invariant name function l o h m Hrun) as [Hg _].
  assert (Hs : s ∈ observers (w_entity m) name).
  { apply (switch_run_invariant name function (switch_subscribed name)
             (switch_step_subscribed name function) l (switch o h) m);
      [by intros s'|done|by rewrite Hat]. }
  (* the notify *)
  assert (Hnotify : ∃ h1, serve (DoNotify [name]) (w_entity m) (w_heap m) = (w_entity m, h1)
                          ∧ h1 !!! s = Bridge u true).
  { cbn [serve]. unfold notify. cbn [notify_from].
    destruct (observers (w_entity m) name) as [|f fs] eqn:Eo; [by apply not_elem_of_nil in Hs|].
    destruct (observers_cons _ _ _ _ Eo) as (reg & -> & ->). rewrite Hu, notify_loop_fanout.
    pose proof (fanout_send_in (f :: fs) u (attrs (w_entity m)) (w_heap m) s Hs) as Hslot.
    destruct (fanout_quiet send (f :: fs) u (attrs (w_entity m)) (w_heap m)
                (send_quiet _ _)) as [_ Hq].
    destruct (fanout send (f :: fs) u (attrs (w_entity m)) (w_heap m)) as [[h1 tr] res].
    cbn [fst snd] in *. subst res. cbn. eauto. }
  destruct Hnotify as (h1 & Hserve & Hslot).
  exists (SwitchMachine (w_entity m) h1 (SwWait s) (w_tasks m) (w_stack m) (w_deeds m)).
  eexists. split.
  { unfold switch_step. rewrite Hat, Hserve. by rewrite ?Hat. }
  split; [done|]. split.
  { by apply switch_wake. }
  unfold switch_body. rewrite Hf. cbn [w_stack w_tasks w_deeds w_entity w_heap].
  pose proof (close_quiesces (w_stack m) (w_tasks m)) as Hq.
  pose proof (close_length (w_stack m) (w_tasks m)) as Hl.
  pose proof (close_deeds (w_stack m) (w_tasks m)) as Hd.
  destruct (close (w_stack m) (w_tasks m)) as [ts ds]. cbn [fst snd] in *.
  subst ds. rewrite <-Hl. cbn [w_tasks w_deeds w_entity].
  split; [done|]. split; [|done].
  unfold alive. rewrite filter_app. fold (alive ts).
  rewrite (alive_none ts) by (intros t k; by apply Hq).
  by rewrite filter_cons, decide_True.
Qed.

(** ** The further properties at concrete inputs *)

(** Deleting "x" on [paired] twice. *)
Lemma delattr_twice_fails_witness :
  attrs paired !! "x" = Some (PInt 5)
  ∧ result (delattr send (after (delattr send paired "x" ∅)) "x"
              (world (delattr send paired "x" ∅))) = inl (AttributeError "x").
Proof.
  assert (H : attrs paired !! "x" = Some (PInt 5)) by reflexivity.
  split; [exact H|].
  by destruct (delattr_twice_fails paired "x" (PInt 5) ∅ H) as (? & _).
Defined.

(** Notifying the unset, unobserved "y" and then "x" on [tidy]. *)
Lemma notify_skips_unobserved_witness :
  is_Some (registry tidy)
  ∧ notify probe_call tidy ["y"; "x"] [] = notify probe_call tidy ["x"] [].
Proof.
  assert (H : is_Some (registry tidy)) by (eexists; reflexivity).
  split; [exact H|].
  exact (notify_skips_unobserved probe_call tidy ["y"; "x"] [] H).
Defined.

(** Notifying "x", then the unset "z", then "x" again on [lopsided]. *)
Lemma notify_stops_at_missing_witness :
  result (notify probe_call lopsided ["x"] []) = inr 1
  ∧ observed lopsided "z" = true
  ∧ attrs lopsided !! "z" = None
  ∧ result (notify probe_call lopsided (["x"] ++ "z" :: ["x"]) [])
    = inl (AttributeError "z")
  ∧ world (notify probe_call lopsided (["x"] ++ "z" :: ["x"]) []) = [(1, PInt 5)].
Proof.
  assert (H1 : result (notify probe_call lopsided ["x"] []) = inr 1) by reflexivity.
  assert (H2 : observed lopsided "z" = true) by reflexivity.
  assert (H3 : attrs lopsided !! "z" = None) by reflexivity.
  split; [exact H1|]. split; [exact H2|]. split; [exact H3|].
  destruct (notify_stops_at_missing probe_call lopsided ["x"] "z" ["x"] [] 1 H1 H2 H3)
    as (Hr & _ & Hw).
  split; [exact Hr|]. rewrite Hw. reflexivity.
Defined.

(** A set, a notify and a first advance on [raw]. *)
Lemma uninitialised_entity_witness :
  registry raw = None
  ∧ ["x"] ≠ []
  ∧ result (notify send raw ["x"] ∅) = inl KeyError
  ∧ r_handoff (observe_enter "x" raw ∅) = Raised KeyError.
Proof.
  assert (H1 : registry raw = None) by reflexivity.
  assert (H2 : ["x"] ≠ @nil string) by discriminate.
  split; [exact H1|]. split; [exact H2|].
  destruct (uninitialised_entity raw "x" (PInt 1) ["x"] ∅ always_async H1 H2)
    as (_ & (Hn & _) & (He & _) & _).
  split; [exact Hn|exact He].
Defined.

(** A stream on "x" of [valued] is started and then cancelled. *)
Lemma stream_start_then_close_witness :
  is_Some (registry valued)
  ∧ (fresh (dom (∅ : gmap nat bridge)) ∉ observers valued "x")
  ∧ length (observers (r_entity (observe_enter "x" valued ∅)) "x")
    = S (length (observers valued "x")).
Proof.
  assert (H1 : is_Some (registry valued)) by (eexists; reflexivity).
  assert (H2 : fresh (dom (∅ : gmap nat bridge)) ∉ observers valued "x")
    by apply not_elem_of_nil.
  split; [exact H1|]. split; [exact H2|].
  by destruct (stream_start_then_close "x" valued ∅ CancelledError H1 H2)
    as (_ & _ & _ & _ & ? & _).
Defined.

(** 7 is assigned to "x" of [paired]; the consumers of both streams read
    it. *)
Lemma streams_do_not_interfere_witness :
  0 ∈ observers paired "x"
  ∧ 1 ∈ observers paired "x"
  ∧ 0 ≠ 1
  ∧ r_handoff
      (observe_wake 1
         (r_entity (observe_wake 0 (after (setattr send paired "x" (PInt 7) ∅))
                      (world (setattr send paired "x" (PInt 7) ∅))))
         (r_heap (observe_wake 0 (after (setattr send paired "x" (PInt 7) ∅))
                    (world (setattr send paired "x" (PInt 7) ∅))))) = Yielded (PInt 7).
Proof.
  assert (H1 : 0 ∈ observers paired "x") by (vm_compute; left).
  assert (H2 : 1 ∈ observers paired "x") by (vm_compute; right; left).
  assert (H3 : 0 ≠ 1) by discriminate.
  split; [exact H1|]. split; [exact H2|]. split; [exact H3|].
  by destruct (streams_do_not_interfere paired ∅ "x" (PInt 7) 0 1 H1 H2 H3) as (_ & ? & _).
Defined.

(** A stream on "x" of [valued] is started and "x" is notified. *)
Lemma notify_replays_current_value_witness :
  is_Some (registry valued)
  ∧ attrs valued !! "x" = Some (PInt 5)
  ∧ (fresh (dom (∅ : gmap nat bridge)) ∉ observers valued "x")
  ∧ result (notify send (r_entity (observe_enter "x" valued ∅)) ["x"]
              (r_heap (observe_enter "x" valued ∅)))
    = inr (length (observers valued "x") + 1).
Proof.
  assert (H1 : is_Some (registry valued)) by (eexists; reflexivity).
  assert (H2 : attrs valued !! "x" = Some (PInt 5)) by reflexivity.
  assert (H3 : fresh (dom (∅ : gmap nat bridge)) ∉ observers valued "x")
    by apply not_elem_of_nil.
  split; [exact H1|]. split; [exact H2|]. split; [exact H3|].
  by destruct (notify_replays_current_value "x" valued ∅ (PInt 5) H1 H2 H3) as (_ & ? & _).
Defined.

(** 1, 2 and 3 are assigned to "x" while the driver of [seq_waiting]
    keeps up. *)
Lemma seq_keeps_up_witness :
  q_at seq_waiting = SeqWait 0
  ∧ 0 ∈ observers (q_entity seq_waiting) "x"
  ∧ ∃ m', seq_run "x" sometimes_async
            (concat (map (round sometimes_async "x") [PInt 1; PInt 2; PInt 3]))
            seq_waiting = Some m'
          ∧ q_journal m'
            = q_journal seq_waiting
              ++ concat (map (λ v, [Begin v; End v]) [PInt 1; PInt 2; PInt 3]).
Proof.
  assert (H1 : q_at seq_waiting = SeqWait 0) by reflexivity.
  assert (H2 : 0 ∈ observers (q_entity seq_waiting) "x") by (vm_compute; left).
  assert (H3 : ∀ v e, v ∈ [PInt 1; PInt 2; PInt 3] → sometimes_async v ≠ Raises e).
  { intros v e _. unfold sometimes_async. by case_decide. }
  split; [exact H1|]. split; [exact H2|].
  destruct (seq_keeps_up "x" sometimes_async [PInt 1; PInt 2; PInt 3] seq_waiting 0
              H1 H2 H3) as (m' & Hrun & _ & Hj).
  exists m'. split; [exact Hrun|exact Hj].
Defined.

(** On [blank], "x" becomes 1 and the driver takes it; the handler is
    invoked with 1, one of the values assigned. *)
Lemma handler_receives_assigned_values_witness :
  (∀ n u, attrs (blank (C := nat)) !! n = Some u → one_or_two u)
  ∧ Forall (admits one_or_two) [Resume; Env (DoSet "x" (PInt 1)); Wake]
  ∧ ∃ m, seq_run "x" sometimes_async [Resume; Env (DoSet "x" (PInt 1)); Wake]
           (seq blank ∅) = Some m
         ∧ Begin (PInt 1) ∈ q_journal m
         ∧ one_or_two (PInt 1).
Proof.
  assert (H1 : ∀ n u, attrs (blank (C := nat)) !! n = Some u → one_or_two u).
  { intros n u H. unfold blank in H. cbn [attrs] in H. by rewrite lookup_empty in H. }
  assert (H2 : ∀ b, event ((∅ : gmap nat bridge) !!! b) = true →
                 one_or_two (value ((∅ : gmap nat bridge) !!! b))).
  { intros b. by rewrite lookup_total_empty. }
  assert (H3 : Forall (admits one_or_two) [Resume; Env (DoSet "x" (PInt 1)); Wake]).
  { repeat constructor. }
  split; [exact H1|]. split; [exact H3|].
  eexists. split; [vm_compute; reflexivity|].
  match goal with |- _ ∈ q_journal ?m ∧ _ => set (m0 := m) end.
  assert (Hrun : seq_run "x" sometimes_async [Resume; Env (DoSet "x" (PInt 1)); Wake]
                   (seq blank ∅) = Some m0) by (vm_compute; reflexivity).
  assert (Hin : Begin (PInt 1) ∈ q_journal m0) by left.
  split; [exact Hin|].
  exact (handler_receives_assigned_values "x" sometimes_async one_or_two _ blank ∅ m0
           (PInt 1) H1 H2 H3 Hrun Hin).
Defined.

(** 2 is assigned to "x"; the handler, invoked with 2, assigns 3 itself
    before it returns, and is invoked again with 3: two operations, two
    invocations. *)
Lemma invocations_bounded_by_requests_witness :
  ∃ m, seq_run "x" sometimes_async reassigning (seq blank ∅) = Some m
       ∧ q_journal m = [Begin (PInt 2); End (PInt 2); Begin (PInt 3); End (PInt 3)]
       ∧ begins (q_journal m) + seq_pending m ≤ requests reassigning.
Proof.
  eexists. split; [vm_compute; reflexivity|].
  match goal with |- q_journal ?m = _ ∧ _ => set (m0 := m) end.
  assert (Hrun : seq_run "x" sometimes_async reassigning (seq blank ∅) = Some m0)
    by (vm_compute; reflexivity).
  split; [reflexivity|].
  exact (invocations_bounded_by_requests "x" sometimes_async _ blank ∅ m0 Hrun).
Defined.

(** After "mode" became 1 and then 2, the stack holds the second task. *)
Lemma switch_stack_holds_latest_task_witness :
  ∃ m, switch_run "mode" always_async one_then_two (switch blank ∅) = Some m
       ∧ created (w_deeds m) = length (w_tasks m)
       ∧ length (w_stack m) ≤ 1.
Proof.
  eexists. split; [vm_compute; reflexivity|].
  match goal with |- created (w_deeds ?m) = _ ∧ _ => set (m0 := m) end.
  assert (Hrun : switch_run "mode" always_async one_then_two (switch blank ∅) = Some m0)
    by (vm_compute; reflexivity).
  destruct (switch_stack_holds_latest_task "mode" always_async _ blank ∅ m0 Hrun)
    as (Hc & Hs & _).
  split; [exact Hc|exact Hs].
Defined.

(** A driver for "x" waits on [blank]; "y" is assigned. *)
Lemma driver_woken_by_its_attribute_only_witness :
  (∀ n b, b ∈ observers (blank (C := nat)) n → is_Some ((∅ : gmap nat bridge) !! b))
  ∧ ("y" : string) ≠ "x"
  ∧ ∃ m, seq_run "x" sometimes_async [Resume] (seq blank ∅) = Some m
         ∧ q_at m = SeqWait 0
         ∧ event (q_heap m !!! 0) = false
         ∧ ∃ m', seq_step "x" sometimes_async (Env (DoSet "y" (PInt 3))) m = Some m'
                 ∧ seq_step "x" sometimes_async Wake m' = None.
Proof.
  assert (H1 : ∀ n b, b ∈ observers (blank (C := nat)) n →
                 is_Some ((∅ : gmap nat bridge) !! b)).
  { intros n b Hb. unfold observers, blank in Hb. cbn in Hb.
    rewrite lookup_empty in Hb. by apply not_elem_of_nil in Hb. }
  assert (H2 : ("y" : string) ≠ "x") by discriminate.
  split; [exact H1|]. split; [exact H2|].
  eexists. split; [vm_compute; reflexivity|].
  match goal with |- q_at ?m = _ ∧ _ => set (m0 := m) end.
  assert (Hrun : seq_run "x" sometimes_async [Resume] (seq blank ∅) = Some m0)
    by (vm_compute; reflexivity).
  assert (H3 : q_at m0 = SeqWait 0) by reflexivity.
  assert (H4 : event (q_heap m0 !!! 0) = false) by (vm_compute; reflexivity).
  split; [exact H3|]. split; [exact H4|].
  destruct (driver_woken_by_its_attribute_only "x" sometimes_async [Resume] blank ∅ m0 0
              "y" (DoSet "y" (PInt 3)) H1 Hrun H3 H4 H2
              (or_introl (ex_intro _ (PInt 3) eq_refl)))
    as (_ & m' & Hstep & _ & _ & _ & Hwake).
  exists m'. split; [exact Hstep|exact Hwake].
Defined.

(** A [switch] driver for "x" waits on [valued]; "x" is notified. *)
Lemma notify_restarts_switch_witness :
  ∃ m, switch_run "x" always_async [Resume] (switch valued ∅) = Some m
       ∧ w_at m = SwWait 0
       ∧ attrs (w_entity m) !! "x" = Some (PInt 5)
       ∧ always_async (PInt 5) = Awaitable
       ∧ ∃ m1 m2,
           switch_step "x" always_async (Env (DoNotify ["x"])) m = Some m1
           ∧ switch_step "x" always_async Wake m1 = Some m2
           ∧ alive (w_tasks m2) = [Task (PInt 5) Active].
Proof.
  eexists. split; [vm_compute; reflexivity|].
  match goal with |- w_at ?m = _ ∧ _ => set (m0 := m) end.
  assert (Hrun : switch_run "x" always_async [Resume] (switch valued ∅) = Some m0)
    by (vm_compute; reflexivity).
  assert (H1 : w_at m0 = SwWait 0) by reflexivity.
  assert (H2 : attrs (w_entity m0) !! "x" = Some (PInt 5)) by (vm_compute; reflexivity).
  assert (H3 : always_async (PInt 5) = Awaitable) by reflexivity.
  split; [exact H1|]. split; [exact H2|]. split; [exact H3|].
  destruct (notify_restarts_switch "x" always_async [Resume] valued ∅ m0 0 (PInt 5)
              Hrun H1 H2 H3) as (m1 & m2 & Hs1 & _ & Hs2 & _ & Ha & _).
  exists m1, m2. split; [exact Hs1|]. split; [exact Hs2|exact Ha].
Defined.
